(** * OPqkdsim.channel: the optical-fibre channel (split-step Fourier method)

    A shallow embedding of [QuantumChannel] from [OPqkdsim/channel.py].

    Numbers.  Python floats and numpy [float64]/[complex128] values are
    read as exact real and complex numbers: [R] of the Standard Library and
    pairs of reals, and every equation between fields below is an equation
    of exact arithmetic.  Two places where the float format decides a
    discrete outcome are modelled as such: the quotient of line 94, which
    is rounded before it is truncated to the number of steps, and the power
    of line 41, which raises when it leaves the range of a double.

    Arrays.  A one-dimensional numpy array is a [list]; the broadcasting
    rules of the elementwise operators and the length checks of the Fourier
    transforms are written out, with the exception they raise.

    Effects.  [propagate_signal] runs in a small state-and-exception monad
    over a [world] made of the engine object, the console and the timeline
    collaborator. *)

From Stdlib Require Import Reals Lra Lia ZArith List Bool.
Import ListNotations.

Open Scope R_scope.

(** ** Complex numbers *)

Module Cplx.

Definition C : Type := (R * R)%type.

Definition Re (z : C) : R := fst z.
Definition Im (z : C) : R := snd z.

(** A float promoted to a complex number. *)
Definition RtoC (x : R) : C := (x, 0).

(** Python's [1j]. *)
Definition Ci : C := (0, 1).

Definition C0 : C := (0, 0).
Definition C1 : C := (1, 0).

Definition Cplus (a b : C) : C := (Re a + Re b, Im a + Im b).
Definition Copp (a : C) : C := (- Re a, - Im a).
Definition Cminus (a b : C) : C := Cplus a (Copp b).
Definition Cmult (a b : C) : C :=
  (Re a * Re b - Im a * Im b, Re a * Im b + Im a * Re b).
Definition Cconj (a : C) : C := (Re a, - Im a).

(** Squared modulus, [Re z ** 2 + Im z ** 2]. *)
Definition Cnorm2 (z : C) : R := Re z * Re z + Im z * Im z.

(** [np.abs] of a complex number. *)
Definition Cabs (z : C) : R := sqrt (Cnorm2 z).

(** [np.exp] of a complex number. *)
Definition Cexp (z : C) : C :=
  (exp (Re z) * cos (Im z), exp (Re z) * sin (Im z)).

(** The point of the unit circle at angle [t]. *)
Definition cis (t : R) : C := (cos t, sin t).

Fixpoint Cpow (z : C) (n : nat) : C :=
  match n with
  | O => C1
  | S m => Cmult z (Cpow z m)
  end.

End Cplx.
Import Cplx.

Declare Scope C_scope.
Delimit Scope C_scope with C.
Bind Scope C_scope with C.
Infix "+" := Cplus : C_scope.
Infix "-" := Cminus : C_scope.
Infix "*" := Cmult : C_scope.
Notation "- x" := (Copp x) : C_scope.

(** ** Exceptions and results *)

Inductive exn : Type :=
| ZeroDivisionError
| ValueError
| IndexError
| OverflowError.

Inductive result (A : Type) : Type :=
| Ok (a : A)
| Raise (e : exn).
Arguments Ok {A} a.
Arguments Raise {A} e.

Definition rbind {A B : Type} (r : result A) (f : A -> result B) : result B :=
  match r with
  | Ok a => f a
  | Raise e => Raise e
  end.

(** ** Float division

    [int(self.fiber_length / self.step_size)] truncates the quotient after
    it was rounded to a double, so that the number of steps is that of the
    rounded quotient.  The division of two floats is a parameter of the
    model, with two facts of the binary64 division of two doubles: a
    quotient below 1 is not rounded up to 1 (such a quotient is at most
    [1 - 2 ** -53], which is a double), and a quotient of 1 or more is not
    rounded below 1 (1 is a double). *)
Class FloatDivision : Type := {
  fdiv : R -> R -> R;
  fdiv_below_one : forall a b : R, b <> 0 -> a / b < 1 -> fdiv a b < 1;
  fdiv_above_one : forall a b : R, b <> 0 -> 1 <= a / b -> 1 <= fdiv a b
}.

(** Division without rounding: what binary64 computes when the quotient is
    itself a double, as in the concrete runs below. *)
Definition exact_division : FloatDivision :=
  {| fdiv := Rdiv;
     fdiv_below_one := fun (a b : R) (_ : b <> 0) (H : a / b < 1) => H;
     fdiv_above_one := fun (a b : R) (_ : b <> 0) (H : 1 <= a / b) => H |}.

(** ** numpy and scipy primitives *)

Module Np.

Fixpoint zip_with {A B D : Type} (f : A -> B -> D)
    (xs : list A) (ys : list B) : list D :=
  match xs, ys with
  | x :: xs', y :: ys' => f x y :: zip_with f xs' ys'
  | _, _ => []
  end.

(** [xs (op) ys] on one-dimensional arrays: equal lengths combine
    elementwise, a length-one operand is stretched, anything else raises
    numpy's "operands could not be broadcast together". *)
Definition binop {A B D : Type} (f : A -> B -> D)
    (xs : list A) (ys : list B) : result (list D) :=
  if Nat.eqb (length xs) (length ys) then Ok (zip_with f xs ys)
  else match xs, ys with
       | [x], _ => Ok (map (f x) ys)
       | _, [y] => Ok (map (fun x => f x y) xs)
       | _, _ => Raise ValueError
       end.

(** [xs (op)= ys]: as [binop], but the result is written into [xs], so only
    the right operand may be stretched. *)
Definition inplace {A B : Type} (f : A -> B -> A)
    (xs : list A) (ys : list B) : result (list A) :=
  if Nat.eqb (length xs) (length ys) then Ok (zip_with f xs ys)
  else match ys with
       | [y] => Ok (map (fun x => f x y) xs)
       | _ => Raise ValueError
       end.

(** [a[-1]]. *)
Definition last_item (xs : list R) : result R :=
  match xs with
  | [] => Raise IndexError
  | x :: xs' => Ok (last xs' x)
  end.

(** [int(x)] of a float: truncation towards zero. *)
Definition int (x : R) : Z :=
  if Rle_dec 0 x then Int_part x else (- Int_part (- x))%Z.

(** [range(n)]. *)
Definition range (n : Z) : list nat := seq 0 (Z.to_nat n).

(** [a / b] on Python floats: a zero divisor raises, otherwise the
    result is the rounded quotient. *)
Definition truediv {fd : FloatDivision} (a b : R) : result R :=
  if Req_dec_T b 0 then Raise ZeroDivisionError else Ok (fdiv a b).

(** [a / b] where the quotient only scales real-valued data: as the rest of
    the arithmetic on reals, without rounding. *)
Definition truediv_exact (a b : R) : result R :=
  if Req_dec_T b 0 then Raise ZeroDivisionError else Ok (a / b).

(** The least real that binary64 rounds to infinity,
    [2 ** 1024 - 2 ** 970]. *)
Definition double_overflow : R := IZR (2 ^ 1024 - 2 ^ 970).

(** [x ** y] on Python floats with a positive base: [OverflowError] when
    the power leaves the range of a double. *)
Definition float_pow (x y : R) : result R :=
  if Rlt_dec (Rpower x y) double_overflow then Ok (Rpower x y)
  else Raise OverflowError.

(** The integers [lo, lo + 1, ..., hi - 1] of [arange(lo, hi, dtype=int)]. *)
Definition arange (lo hi : Z) : list Z :=
  map (fun k => (lo + Z.of_nat k)%Z) (seq 0 (Z.to_nat (hi - lo))).

(** [np.fft.fftfreq(n, d)]:
    [val = 1.0 / (n * d)] raises on a zero product, [empty(n, int)] raises
    on a negative length, and the bins are
    [0, 1, ..., (n-1)//2, -(n//2), ..., -1] times [val]. *)
Definition fftfreq (n : Z) (d : R) : result (list R) :=
  rbind (truediv_exact 1 (IZR n * d)) (fun val =>
  if (n <? 0)%Z then Raise ValueError
  else
    let N := ((n - 1) / 2 + 1)%Z in
    Ok (map (fun k => IZR k * val) (arange 0 N ++ arange (- (n / 2)) 0))).

(** Sum of [f 0, ..., f (n - 1)]. *)
Fixpoint Csum (f : nat -> C) (n : nat) : C :=
  match n with
  | O => C0
  | S m => Cplus (Csum f m) (f m)
  end.

(** The discrete Fourier transform of [scipy.fft.fft]:
    [y[j] = sum_k x[k] * exp(-2j * pi * j * k / n)]. *)
Definition dft (x : list C) : list C :=
  let n := length x in
  map (fun j =>
         Csum (fun k => Cmult (nth k x C0)
                          (cis (- (2 * PI * INR j * INR k / INR n)))) n)
      (seq 0 n).

(** The inverse transform of [scipy.fft.ifft], normalised by [1 / n]:
    [x[k] = (1 / n) * sum_j y[j] * exp(2j * pi * j * k / n)]. *)
Definition idft (y : list C) : list C :=
  let n := length y in
  map (fun k =>
         Cmult (RtoC (/ INR n))
           (Csum (fun j => Cmult (nth j y C0)
                            (cis (2 * PI * INR j * INR k / INR n))) n))
      (seq 0 n).

(** [scipy.fft.fft] and [scipy.fft.ifft] refuse an empty array
    ("invalid number of data points (0) specified"). *)
Definition fft (x : list C) : result (list C) :=
  match x with
  | [] => Raise ValueError
  | _ => Ok (dft x)
  end.

Definition ifft (y : list C) : result (list C) :=
  match y with
  | [] => Raise ValueError
  | _ => Ok (idft y)
  end.

End Np.

(** ** The channel object *)

(** The attributes set by [QuantumChannel.__init__].  ([self.timeline], the
    reference to the collaborator, is the [timeline] component of the
    [world] below.) *)
Record QuantumChannel : Type := {
  fiber_length : R;
  attenuation : R;
  beta2 : R;
  beta3 : R;
  dg_delay : R;
  gamma : R;
  fft_samples : Z;
  step_size : R;
  frequency_grid : list R;
  angular_freq : list R
}.

(** [QuantumChannel.__init__].  Line 41 computes [10 ** x] on floats and
    raises [OverflowError] before any other attribute is set. *)
Definition __init__ (fiber_length attenuation beta2 beta3 dg_delay gamma : R)
    (fft_samples : Z) (step_size : R) : result QuantumChannel :=
  rbind (Np.float_pow 10 (- attenuation / 10)) (fun attenuation' =>
  let beta2' := beta2 * 1e-24 in
  let beta3' := beta3 * 1e-36 in
  let dg_delay' := dg_delay * 1e-12 in
  rbind (Np.fftfreq fft_samples 1e-12) (fun frequency_grid =>
  Ok {| fiber_length := fiber_length;
        attenuation := attenuation';
        beta2 := beta2';
        beta3 := beta3';
        dg_delay := dg_delay';
        gamma := gamma;
        fft_samples := fft_samples;
        step_size := step_size;
        frequency_grid := frequency_grid;
        angular_freq := map (fun f => 2 * PI * f) frequency_grid |})).

(** The keyword defaults of the constructor. *)
Definition default_channel : result QuantumChannel :=
  __init__ 50.0 0.2 (-21.27) 0.12 0.1 1.3 1024 0.1.

(** [QuantumChannel.dispersion_operator]. *)
Definition dispersion_operator (self : QuantumChannel) (dz : R) : list C :=
  let w := angular_freq self in
  map (fun w_k =>
         Cexp ((- Ci) * RtoC (beta2 self / 2) * RtoC (w_k ^ 2) * RtoC dz
               - Ci * RtoC (beta3 self / 6) * RtoC (w_k ^ 3) * RtoC dz)%C)
      w.

(** [QuantumChannel.nonlinear_operator]. *)
Definition nonlinear_operator (self : QuantumChannel) (E : list C) (dz : R)
    : list C :=
  map (fun E_k =>
         (E_k * Cexp (Ci * RtoC (gamma self) * RtoC (Cabs E_k ^ 2) * RtoC dz))%C)
      E.

(** ** The world and its monad *)

(** One call of [timeline.publish(source, time, P, Ex, Ey, magnitude)]. *)
Record publication : Type := {
  pub_source : QuantumChannel;
  pub_time : R;
  pub_power : list R;
  pub_Ex : list R;
  pub_Ey : list R;
  pub_magnitude : list R
}.

(** The engine object, the lines printed so far (event time and last power
    sample of each) and the publications received by the timeline, most
    recent first. *)
Record world : Type := {
  engine : QuantumChannel;
  console : list (R * R);
  timeline : list publication
}.

Definition M (A : Type) : Type := world -> world * result A.

Definition ret {A : Type} (a : A) : M A := fun w => (w, Ok a).

Definition bind {A B : Type} (m : M A) (f : A -> M B) : M B :=
  fun w =>
    match m w with
    | (w', Ok a) => f a w'
    | (w', Raise e) => (w', Raise e)
    end.

Notation "x <- m ;; k" := (bind m (fun x => k))
  (at level 61, m at next level, right associativity).
Notation "m ;;; k" := (bind m (fun _ => k))
  (at level 61, right associativity).

(** A pure computation that may raise. *)
Definition lift {A : Type} (r : result A) : M A := fun w => (w, r).

(** Reading [self.<attribute>] or calling a method of [self] that only
    reads. *)
Definition attr {A : Type} (f : QuantumChannel -> A) : M A :=
  fun w => (w, Ok (f (engine w))).

Definition print (event_time P_last : R) : M unit :=
  fun w => ({| engine := engine w;
               console := (event_time, P_last) :: console w;
               timeline := timeline w |}, Ok tt).

Definition publish (source : QuantumChannel) (time : R)
    (P Ex Ey magnitude : list R) : M unit :=
  fun w => ({| engine := engine w;
               console := console w;
               timeline := {| pub_source := source; pub_time := time;
                              pub_power := P; pub_Ex := Ex; pub_Ey := Ey;
                              pub_magnitude := magnitude |} :: timeline w |},
            Ok tt).

(** [for x in xs: s = body(x, s)]. *)
Fixpoint for_each {A S : Type} (xs : list A) (body : A -> S -> M S) (s : S)
    : M S :=
  match xs with
  | [] => ret s
  | x :: xs' => s' <- body x s ;; for_each xs' body s'
  end.

(** ** Propagation *)

(** The body of the loop of [propagate_signal], lines 101 to 113. *)
Definition ssfm_body (dz : R) (E_complex : list C) : M (list C) :=
  E_complex <- attr (fun self => nonlinear_operator self E_complex (dz / 2)) ;;
  E_complex_f <- lift (Np.fft E_complex) ;;
  D <- attr (fun self => dispersion_operator self dz) ;;
  E_complex_f <- lift (Np.inplace Cmult E_complex_f D) ;;
  E_complex <- lift (Np.ifft E_complex_f) ;;
  E_complex <- attr (fun self => nonlinear_operator self E_complex (dz / 2)) ;;
  a <- attr attenuation ;;
  ret (map (fun E_k => (E_k * RtoC (Rpower a dz))%C) E_complex).

(** [QuantumChannel.propagate_signal].  [self.attenuation ** dz] is
    [Rpower], the attenuation factor being a positive power of ten. *)
Definition propagate_signal {fd : FloatDivision} (event_time : R)
    (t P Ex Ey E : list R) : M unit :=
  L <- attr fiber_length ;;
  step <- attr step_size ;;
  ratio <- lift (Np.truediv L step) ;;
  let num_steps := Np.int ratio in
  dz <- attr step_size ;;
  E_complex <- lift (Np.binop (fun x z => (RtoC x + z)%C) Ex
                       (map (fun y => (Ci * RtoC y)%C) Ey)) ;;
  E_complex <- for_each (Np.range num_steps)
                 (fun _ E_complex => ssfm_body dz E_complex) E_complex ;;
  let Ex_out := map Re E_complex in
  let Ey_out := map Im E_complex in
  let P_out := Np.zip_with Rplus (map (fun x => x ^ 2) Ex_out)
                 (map (fun y => y ^ 2) Ey_out) in
  P_last <- lift (Np.last_item P_out) ;;
  print event_time P_last ;;;
  self <- attr (fun self => self) ;;
  publish self event_time P_out Ex_out Ey_out
    (map sqrt (Np.zip_with Rplus (map (fun x => x ^ 2) Ex_out)
                 (map (fun y => y ^ 2) Ey_out))).

(** ** Fragments of [propagate_signal] and the quantities of the specification *)

(** [Ex + 1j * Ey], line 98. *)
Definition combine_field (Ex Ey : list R) : result (list C) :=
  Np.binop (fun x z => (RtoC x + z)%C) Ex (map (fun y => (Ci * RtoC y)%C) Ey).

(** Lines 105 to 107: forward transform, multiplication by the dispersion
    operator, inverse transform. *)
Definition dispersion_step (self : QuantumChannel) (dz : R) (E_complex : list C)
    : result (list C) :=
  rbind (Np.fft E_complex) (fun E_complex_f =>
  rbind (Np.inplace Cmult E_complex_f (dispersion_operator self dz))
    (fun E_complex_f => Np.ifft E_complex_f)).

(** Lines 116 to 122: the output arrays, the progress line and the
    publication. *)
Definition output_power (E_complex : list C) : list R :=
  Np.zip_with Rplus (map (fun x => x ^ 2) (map Re E_complex))
    (map (fun y => y ^ 2) (map Im E_complex)).

Definition report_and_publish (event_time : R) (E_complex : list C) : M unit :=
  P_last <- lift (Np.last_item (output_power E_complex)) ;;
  print event_time P_last ;;;
  self <- attr (fun self => self) ;;
  publish self event_time (output_power E_complex)
    (map Re E_complex) (map Im E_complex)
    (map sqrt (output_power E_complex)).

(** Kleisli composition and iteration of computations that may raise. *)
Definition kcomp {A B D : Type} (f : A -> result B) (g : B -> result D)
    : A -> result D :=
  fun a => rbind (f a) g.

Infix ">=>" := kcomp (at level 62, left associativity).

Fixpoint iterate {A : Type} (n : nat) (f : A -> result A) (a : A) : result A :=
  match n with
  | O => Ok a
  | S m => rbind (f a) (iterate m f)
  end.

(** The six stages of one step, as the specification lists them. *)
Module Stage.

Definition nonlinear (self : QuantumChannel) (h : R) (E : list C)
    : result (list C) :=
  Ok (nonlinear_operator self E h).

Definition forward (E : list C) : result (list C) := Np.fft E.

Definition disperse (self : QuantumChannel) (dz : R) (E_f : list C)
    : result (list C) :=
  Np.inplace Cmult E_f (dispersion_operator self dz).

Definition inverse (E_f : list C) : result (list C) := Np.ifft E_f.

Definition attenuate (self : QuantumChannel) (dz : R) (E : list C)
    : result (list C) :=
  Ok (map (fun E_k => (E_k * RtoC (Rpower (attenuation self) dz))%C) E).

End Stage.

(** One step of the specification: half non-linear step, forward transform,
    dispersion over the full step, inverse transform, half non-linear step,
    attenuation. *)
Definition ssfm_step_spec (self : QuantumChannel) (dz : R)
    : list C -> result (list C) :=
  Stage.nonlinear self (dz / 2) >=> Stage.forward >=> Stage.disperse self dz
    >=> Stage.inverse >=> Stage.nonlinear self (dz / 2)
    >=> Stage.attenuate self dz.

(** The propagation of the specification with [n] steps. *)
Definition propagate_spec (n : nat) (event_time : R) (Ex Ey : list R) : M unit :=
  self <- attr (fun self => self) ;;
  E_complex <- lift (combine_field Ex Ey) ;;
  E_complex <- lift (iterate n (ssfm_step_spec self (step_size self)) E_complex) ;;
  report_and_publish event_time E_complex.

(** The field after the loop, as a function of the engine and of [Ex] and
    [Ey] alone. *)
Definition propagated_field {fd : FloatDivision} (self : QuantumChannel)
    (Ex Ey : list R) : result (list C) :=
  rbind (Np.truediv (fiber_length self) (step_size self)) (fun ratio =>
  rbind (combine_field Ex Ey) (fun E_complex =>
  iterate (Z.to_nat (Int_part ratio))
    (ssfm_step_spec self (step_size self)) E_complex)).

(** Total energy of a field, the sum of [|E_k| ** 2]. *)
Definition energy (E : list C) : R :=
  fold_right (fun E_k acc => Cabs E_k ^ 2 + acc) 0 E.

(** The transfer function of the specification at angular frequency [w]:
    a rotation by the phase [-(beta2/2 * w^2 + beta3/6 * w^3) * dz]. *)
Definition dispersion_phase (b2 b3 w dz : R) : R :=
  - (b2 / 2 * w ^ 2 * dz) - b3 / 6 * w ^ 3 * dz.

(** The engine with another differential group delay. *)
Definition with_dg_delay (d : R) (q : QuantumChannel) : QuantumChannel :=
  {| fiber_length := fiber_length q;
     attenuation := attenuation q;
     beta2 := beta2 q;
     beta3 := beta3 q;
     dg_delay := d;
     gamma := gamma q;
     fft_samples := fft_samples q;
     step_size := step_size q;
     frequency_grid := frequency_grid q;
     angular_freq := angular_freq q |}.

Definition with_engine (q : QuantumChannel) (w : world) : world :=
  {| engine := q; console := console w; timeline := timeline w |}.

(** The arrays of a publication, without its source and time. *)
Definition pub_arrays (p : publication)
    : list R * list R * list R * list R :=
  (pub_power p, pub_Ex p, pub_Ey p, pub_magnitude p).

(** The world after a successful call that printed [line] and published
    [p]. *)
Definition after_publish (w : world) (line : R * R) (p : publication) : world :=
  {| engine := engine w;
     console := line :: console w;
     timeline := p :: timeline w |}.

(** The bins of [np.fft.fftfreq], before scaling. *)
Definition frequency_bins (n : Z) : list Z :=
  Np.arange 0 ((n - 1) / 2 + 1) ++ Np.arange (- (n / 2)) 0.

(** The object the specification says the constructor stores. *)
Definition stored (L a b2 b3 dg g : R) (N : Z) (dz : R) : QuantumChannel :=
  let grid := map (fun k => IZR k * (1 / (IZR N * 1e-12))) (frequency_bins N) in
  {| fiber_length := L;
     attenuation := Rpower 10 (- a / 10);
     beta2 := b2 * 1e-24;
     beta3 := b3 * 1e-36;
     dg_delay := dg * 1e-12;
     gamma := g;
     fft_samples := N;
     step_size := dz;
     frequency_grid := grid;
     angular_freq := map (fun f => 2 * PI * f) grid |}.

(** ** The concrete scenario of the specification

    Eight samples, one step of one kilometre, no dispersion, no
    non-linearity, no loss, and a unit impulse at sample 0. *)
Definition scenario_channel : QuantumChannel := stored 1 0 0 0 0.1 0 8 1.

Definition unit_impulse : list R := [1; 0; 0; 0; 0; 0; 0; 0].

Definition zeros8 : list R := [0; 0; 0; 0; 0; 0; 0; 0].

(** A world in which nothing was printed or published yet. *)
Definition fresh_world (q : QuantumChannel) : world :=
  {| engine := q; console := []; timeline := [] |}.

(** The engine with another fibre length. *)
Definition with_fiber_length (L : R) (q : QuantumChannel) : QuantumChannel :=
  {| fiber_length := L;
     attenuation := attenuation q;
     beta2 := beta2 q;
     beta3 := beta3 q;
     dg_delay := dg_delay q;
     gamma := gamma q;
     fft_samples := fft_samples q;
     step_size := step_size q;
     frequency_grid := frequency_grid q;
     angular_freq := angular_freq q |}.

(** Sum of an array of floats, [np.sum]. *)
Definition total (xs : list R) : R := fold_right Rplus 0 xs.

(** The input power array [Ex ** 2 + Ey ** 2]. *)
Definition input_power (Ex Ey : list R) : list R :=
  Np.zip_with Rplus (map (fun x => x ^ 2) Ex) (map (fun y => y ^ 2) Ey).

(** * Complex arithmetic *)

Ltac cplx :=
  repeat match goal with z : C |- _ => destruct z end;
  unfold Cminus, Cplus, Cmult, Copp, Cconj, RtoC, Ci, C0, C1, Re, Im in *;
  simpl in *.

Ltac cring := cplx; f_equal; ring.

Lemma Cplus_comm (a b : C) : (a + b = b + a)%C.
Proof. cring. Qed.

Lemma Cplus_assoc (a b c : C) : (a + (b + c) = a + b + c)%C.
Proof. cring. Qed.

Lemma Cplus_0_l (a : C) : (C0 + a)%C = a.
Proof. cring. Qed.

Lemma Cplus_0_r (a : C) : (a + C0)%C = a.
Proof. cring. Qed.

Lemma Cmult_comm (a b : C) : (a * b = b * a)%C.
Proof. cring. Qed.

Lemma Cmult_assoc (a b c : C) : (a * (b * c) = a * b * c)%C.
Proof. cring. Qed.

Lemma Cmult_1_l (a : C) : (C1 * a)%C = a.
Proof. cring. Qed.

Lemma Cmult_1_r (a : C) : (a * C1)%C = a.
Proof. cring. Qed.

Lemma Cmult_0_l (a : C) : (C0 * a)%C = C0.
Proof. cring. Qed.

Lemma Cmult_0_r (a : C) : (a * C0)%C = C0.
Proof. cring. Qed.

Lemma Cmult_plus_distr_l (a b c : C) : (a * (b + c) = a * b + a * c)%C.
Proof. cring. Qed.

Lemma Cmult_plus_distr_r (a b c : C) : ((a + b) * c = a * c + b * c)%C.
Proof. cring. Qed.

Lemma Cconj_plus (a b : C) : Cconj (a + b) = (Cconj a + Cconj b)%C.
Proof. cring. Qed.

Lemma Cconj_mult (a b : C) : Cconj (a * b) = (Cconj a * Cconj b)%C.
Proof. cring. Qed.

Lemma Cmult_conj (a : C) : (a * Cconj a)%C = RtoC (Cnorm2 a).
Proof. unfold Cnorm2; cring. Qed.

Lemma RtoC_plus (x y : R) : RtoC (x + y) = (RtoC x + RtoC y)%C.
Proof. cring. Qed.

Lemma RtoC_mult (x y : R) : RtoC (x * y) = (RtoC x * RtoC y)%C.
Proof. cring. Qed.

Lemma RtoC_inj (x y : R) : RtoC x = RtoC y -> x = y.
Proof. unfold RtoC; congruence. Qed.

Lemma Cnorm2_nonneg (z : C) : 0 <= Cnorm2 z.
Proof. unfold Cnorm2; nra. Qed.

Lemma Cnorm2_mult (a b : C) : Cnorm2 (a * b) = Cnorm2 a * Cnorm2 b.
Proof. unfold Cnorm2; cplx; ring. Qed.

Lemma Cnorm2_zero (z : C) : Cnorm2 z = 0 -> z = C0.
Proof.
  destruct z as [x y]; unfold Cnorm2, C0; simpl; intros H.
  assert (x = 0) by nra. assert (y = 0) by nra. congruence.
Qed.

Lemma Cmult_integral (a b : C) : (a * b)%C = C0 -> a <> C0 -> b = C0.
Proof.
  intros H Ha. apply Cnorm2_zero.
  assert (Hn : Cnorm2 (a * b) = 0) by (rewrite H; unfold Cnorm2, C0; simpl; ring).
  rewrite Cnorm2_mult in Hn.
  destruct (Rmult_integral _ _ Hn) as [H0 | H0]; [ | exact H0 ].
  elim Ha. now apply Cnorm2_zero.
Qed.

Lemma Cabs_sqr (z : C) : Cabs z ^ 2 = Cnorm2 z.
Proof.
  unfold Cabs. simpl. rewrite Rmult_1_r.
  apply sqrt_sqrt, Cnorm2_nonneg.
Qed.

Lemma Cabs_mult (a b : C) : Cabs (a * b) = Cabs a * Cabs b.
Proof.
  unfold Cabs. rewrite Cnorm2_mult.
  apply sqrt_mult; apply Cnorm2_nonneg.
Qed.

(** ** The unit circle *)

Lemma cis_0 : cis 0 = C1.
Proof. unfold cis, C1. now rewrite cos_0, sin_0. Qed.

Lemma cis_plus (a b : R) : cis (a + b) = (cis a * cis b)%C.
Proof.
  unfold cis, Cmult; simpl. rewrite cos_plus, sin_plus. f_equal; ring.
Qed.

Lemma cis_neg (a : R) : cis (- a) = Cconj (cis a).
Proof. unfold cis, Cconj; simpl. now rewrite cos_neg, sin_neg. Qed.

Lemma Cnorm2_cis (t : R) : Cnorm2 (cis t) = 1.
Proof.
  unfold Cnorm2, cis; simpl.
  pose proof (sin2_cos2 t) as H. unfold Rsqr in H. lra.
Qed.

Lemma Cabs_cis (t : R) : Cabs (cis t) = 1.
Proof. unfold Cabs. rewrite Cnorm2_cis. apply sqrt_1. Qed.

Lemma Cexp_imaginary (t : R) : Cexp (0, t) = cis t.
Proof.
  unfold Cexp, cis; simpl. rewrite exp_0. f_equal; ring.
Qed.

Lemma cis_pow (t : R) (n : nat) : cis (INR n * t) = Cpow (cis t) n.
Proof.
  induction n as [| n IH].
  - simpl. rewrite Rmult_0_l. apply cis_0.
  - rewrite S_INR. replace ((INR n + 1) * t) with (t + INR n * t) by ring.
    rewrite cis_plus, IH. reflexivity.
Qed.

Lemma cis_2PI_nat (n : nat) : cis (2 * PI * INR n) = C1.
Proof.
  unfold cis, C1.
  replace (2 * PI * INR n) with (0 + 2 * INR n * PI) by ring.
  now rewrite cos_period, sin_period, cos_0, sin_0.
Qed.

(** A rotation by an angle strictly between 0 and a full turn is not the
    identity. *)
Lemma cis_neq_1 (t : R) : 0 < t < 2 * PI -> cis t <> C1.
Proof.
  intros [H0 H1] H. unfold cis, C1 in H.
  assert (Hc : cos t = 1) by congruence.
  replace t with (2 * (t / 2)) in Hc by field.
  rewrite cos_2a_sin in Hc.
  assert (Hs : 0 < sin (t / 2)) by (apply sin_gt_0; lra).
  nra.
Qed.

(** * Finite sums *)

Section Sums.

Import Np.

Lemma Csum_ext (f g : nat -> C) (n : nat) :
  (forall k, (k < n)%nat -> f k = g k) -> Csum f n = Csum g n.
Proof.
  induction n as [| n IH]; intros H; simpl; [ reflexivity | ].
  rewrite IH, H by (intros; try apply H; lia). reflexivity.
Qed.

Lemma Csum_zero (n : nat) : Csum (fun _ => C0) n = C0.
Proof.
  induction n as [| n IH]; simpl; [ reflexivity | ].
  rewrite IH. apply Cplus_0_l.
Qed.

Lemma Csum_const_1 (n : nat) : Csum (fun _ => C1) n = RtoC (INR n).
Proof.
  induction n as [| n IH]; [ reflexivity | ].
  rewrite S_INR. simpl Csum. rewrite IH. cring.
Qed.

Lemma Csum_plus (f g : nat -> C) (n : nat) :
  Csum (fun k => (f k + g k)%C) n = (Csum f n + Csum g n)%C.
Proof.
  induction n as [| n IH]; simpl; [ cring | ].
  rewrite IH. cring.
Qed.

Lemma Csum_scal_l (c : C) (f : nat -> C) (n : nat) :
  Csum (fun k => (c * f k)%C) n = (c * Csum f n)%C.
Proof.
  induction n as [| n IH]; simpl; [ cring | ].
  rewrite IH. cring.
Qed.

Lemma Csum_scal_r (c : C) (f : nat -> C) (n : nat) :
  Csum (fun k => (f k * c)%C) n = (Csum f n * c)%C.
Proof.
  induction n as [| n IH]; simpl; [ cring | ].
  rewrite IH. cring.
Qed.

Lemma Csum_conj (f : nat -> C) (n : nat) :
  Cconj (Csum f n) = Csum (fun k => Cconj (f k)) n.
Proof.
  induction n as [| n IH]; simpl; [ cring | ].
  rewrite Cconj_plus, IH. reflexivity.
Qed.

Lemma Csum_RtoC (f : nat -> R) (n : nat) :
  Csum (fun k => RtoC (f k)) n = RtoC (Re (Csum (fun k => RtoC (f k)) n)).
Proof.
  induction n as [| n IH]; simpl; [ reflexivity | ].
  rewrite IH. cring.
Qed.

(** Exchange of two finite sums. *)
Lemma Csum_swap (f : nat -> nat -> C) (n m : nat) :
  Csum (fun j => Csum (fun k => f j k) m) n
  = Csum (fun k => Csum (fun j => f j k) n) m.
Proof.
  induction n as [| n IH]; simpl.
  - now rewrite Csum_zero.
  - rewrite IH, <- Csum_plus. reflexivity.
Qed.

(** A sum against the indicator of one index picks that term. *)
Lemma Csum_pick (f : nat -> C) (n k0 : nat) :
  (k0 < n)%nat ->
  Csum (fun k => if Nat.eqb k k0 then f k else C0) n = f k0.
Proof.
  induction n as [| n IH]; intros H; [ lia | ].
  simpl. destruct (Nat.eqb_spec n k0) as [-> | Hne].
  - rewrite (Csum_ext _ (fun _ => C0)).
    + rewrite Csum_zero. apply Cplus_0_l.
    + intros k Hk. destruct (Nat.eqb_spec k k0); [ lia | reflexivity ].
  - rewrite IH by lia. apply Cplus_0_r.
Qed.

(** The geometric sum. *)
Lemma Csum_geometric (r : C) (n : nat) :
  ((C1 - r) * Csum (fun j => Cpow r j) n = C1 - Cpow r n)%C.
Proof.
  induction n as [| n IH]; simpl.
  - cring.
  - rewrite Cmult_plus_distr_l, IH.
    generalize (Cpow r n); intros p. cring.
Qed.

(** Orthogonality of the [n]-th roots of unity. *)
Lemma roots_of_unity_orthogonal (n a b : nat) :
  (a < n)%nat -> (b < n)%nat ->
  Csum (fun j => cis (2 * PI * INR j * (INR a - INR b) / INR n)) n
  = if Nat.eqb a b then RtoC (INR n) else C0.
Proof.
  intros Ha Hb.
  assert (Hn : 0 < INR n) by (apply lt_0_INR; lia).
  destruct (Nat.eqb_spec a b) as [-> | Hab].
  - rewrite <- Csum_const_1. apply Csum_ext. intros j _.
    rewrite <- cis_0. f_equal. field. lra.
  - set (th := 2 * PI * (INR a - INR b) / INR n).
    rewrite (Csum_ext _ (fun j => Cpow (cis th) j)).
    2:{ intros j _. rewrite <- cis_pow. f_equal. unfold th. field. lra. }
    apply Cmult_integral with (a := (C1 - cis th)%C).
    + rewrite Csum_geometric, <- cis_pow.
      replace (INR n * th) with (2 * PI * INR a + - (2 * PI * INR b))
        by (unfold th; field; lra).
      rewrite cis_plus, cis_neg, !cis_2PI_nat. cring.
    + intros H.
      assert (H1 : cis th = C1).
      { destruct (cis th) as [x y]. unfold Cminus, Cplus, Copp, C1, C0 in *.
        simpl in H. injection H as Hx Hy. f_equal; lra. }
      pose proof PI_RGT_0 as Hpi.
      assert (HA : INR a < INR n) by (apply lt_INR; lia).
      assert (HB : INR b < INR n) by (apply lt_INR; lia).
      pose proof (pos_INR a) as HA0. pose proof (pos_INR b) as HB0.
      assert (Hd : INR a <> INR b) by (intros E; apply INR_eq in E; lia).
      assert (Hq : th * INR n = 2 * PI * (INR a - INR b))
        by (unfold th; field; lra).
      destruct (Rlt_le_dec (INR b) (INR a)) as [Hlt | Hle].
      * apply (cis_neq_1 th); [ | exact H1 ]. split; nra.
      * apply (cis_neq_1 (- th)).
        -- split; nra.
        -- rewrite cis_neg, H1. cring.
Qed.

End Sums.

(** * Transforms with an orthogonal kernel *)

Section Kernel.

Import Np.

Variable n : nat.
Variable u : nat -> nat -> C.

Hypothesis orthogonal : forall a b, (a < n)%nat -> (b < n)%nat ->
  Csum (fun j => (u j a * Cconj (u j b))%C) n
  = if Nat.eqb a b then RtoC (INR n) else C0.

(** Transforming and then applying the conjugate kernel gives back the
    signal, scaled by [n]. *)
Lemma kernel_inversion (x : nat -> C) (k : nat) :
  (k < n)%nat ->
  Csum (fun j => (Csum (fun l => (x l * u j l)%C) n * Cconj (u j k))%C) n
  = (RtoC (INR n) * x k)%C.
Proof.
  intros Hk.
  rewrite (Csum_ext _
             (fun j => Csum (fun l => (x l * (u j l * Cconj (u j k)))%C) n)).
  2:{ intros j _. rewrite <- Csum_scal_r. apply Csum_ext. intros l _.
      now rewrite Cmult_assoc. }
  rewrite Csum_swap.
  rewrite (Csum_ext _
             (fun l => if Nat.eqb l k then (RtoC (INR n) * x l)%C else C0)).
  - now apply Csum_pick.
  - intros l Hl. rewrite Csum_scal_l, orthogonal by assumption.
    destruct (Nat.eqb l k); [ apply Cmult_comm | apply Cmult_0_r ].
Qed.

(** The transform multiplies the energy by [n]. *)
Lemma kernel_energy (x : nat -> C) :
  Csum (fun j => (Csum (fun k => (x k * u j k)%C) n
                  * Cconj (Csum (fun k => (x k * u j k)%C) n))%C) n
  = (RtoC (INR n) * Csum (fun k => (x k * Cconj (x k))%C) n)%C.
Proof.
  rewrite (Csum_ext _
    (fun j => Csum (fun k => Csum (fun l =>
       ((x k * Cconj (x l)) * (u j k * Cconj (u j l)))%C) n) n)).
  2:{ intros j _. rewrite Csum_conj, <- Csum_scal_r.
      apply Csum_ext. intros k _. rewrite <- Csum_scal_l.
      apply Csum_ext. intros l _. rewrite Cconj_mult.
      generalize (x k) (x l) (u j k) (u j l). intros. cring. }
  rewrite Csum_swap, <- Csum_scal_l.
  apply Csum_ext. intros k Hk.
  rewrite Csum_swap.
  rewrite (Csum_ext _
    (fun l => if Nat.eqb l k then (RtoC (INR n) * (x l * Cconj (x l)))%C
              else C0)).
  - now apply Csum_pick.
  - intros l Hl. rewrite Csum_scal_l, orthogonal by assumption.
    rewrite Nat.eqb_sym.
    destruct (Nat.eqb_spec l k) as [-> | _];
      [ apply Cmult_comm | apply Cmult_0_r ].
Qed.

End Kernel.

(** * The discrete Fourier transform *)

Section Fourier.

Import Np.

Lemma nth_map_seq {A : Type} (f : nat -> A) (n k : nat) (d : A) :
  (k < n)%nat -> nth k (map f (seq 0 n)) d = f k.
Proof.
  intros H.
  rewrite (nth_indep _ d (f O)) by now rewrite length_map, length_seq.
  rewrite map_nth, seq_nth by assumption. reflexivity.
Qed.

Lemma length_dft (x : list C) : length (dft x) = length x.
Proof. unfold dft. now rewrite length_map, length_seq. Qed.

Lemma length_idft (y : list C) : length (idft y) = length y.
Proof. unfold idft. now rewrite length_map, length_seq. Qed.

Lemma forward_kernel_orthogonal (n a b : nat) :
  (a < n)%nat -> (b < n)%nat ->
  Csum (fun j => (cis (- (2 * PI * INR j * INR a / INR n))
                  * Cconj (cis (- (2 * PI * INR j * INR b / INR n))))%C) n
  = if Nat.eqb a b then RtoC (INR n) else C0.
Proof.
  intros Ha Hb.
  assert (Hn : INR n <> 0) by (apply not_0_INR; lia).
  rewrite Nat.eqb_sym, <- roots_of_unity_orthogonal by assumption.
  apply Csum_ext. intros j _.
  rewrite <- cis_neg, <- cis_plus. f_equal. field. exact Hn.
Qed.

Lemma inverse_kernel_orthogonal (n a b : nat) :
  (a < n)%nat -> (b < n)%nat ->
  Csum (fun j => (cis (2 * PI * INR j * INR a / INR n)
                  * Cconj (cis (2 * PI * INR j * INR b / INR n)))%C) n
  = if Nat.eqb a b then RtoC (INR n) else C0.
Proof.
  intros Ha Hb.
  assert (Hn : INR n <> 0) by (apply not_0_INR; lia).
  rewrite <- roots_of_unity_orthogonal by assumption.
  apply Csum_ext. intros j _.
  rewrite <- cis_neg, <- cis_plus. f_equal. field. exact Hn.
Qed.

(** Round trip: the inverse transform undoes the forward transform. *)
Lemma idft_dft (x : list C) : idft (dft x) = x.
Proof.
  apply nth_ext with (d := C0) (d' := C0).
  - now rewrite length_idft, length_dft.
  - intros k Hk. rewrite length_idft, length_dft in Hk.
    unfold idft. rewrite length_dft, nth_map_seq by assumption.
    assert (Hn : INR (length x) <> 0) by (apply not_0_INR; lia).
    rewrite (Csum_ext _ (fun j =>
      (Csum (fun l => (nth l x C0
                       * cis (- (2 * PI * INR j * INR l / INR (length x))))%C)
         (length x)
       * Cconj (cis (- (2 * PI * INR j * INR k / INR (length x)))))%C)).
    + rewrite (kernel_inversion (length x)
                 (fun j l => cis (- (2 * PI * INR j * INR l / INR (length x)))))
        by (try assumption; intros; now apply forward_kernel_orthogonal).
      rewrite Cmult_assoc, <- RtoC_mult.
      replace (/ INR (length x) * INR (length x)) with 1 by (field; exact Hn).
      apply Cmult_1_l.
    + intros j Hj. unfold dft. rewrite nth_map_seq by assumption.
      rewrite <- cis_neg, Ropp_involutive. reflexivity.
Qed.

Lemma Csum_shift (f : nat -> C) (n : nat) :
  Csum f (S n) = (f O + Csum (fun k => f (S k)) n)%C.
Proof.
  induction n as [| n IH].
  - simpl. cring.
  - change (Csum f (S (S n))) with (Csum f (S n) + f (S n))%C.
    rewrite IH. simpl. now rewrite Cplus_assoc.
Qed.

(** The energy of an array as a complex sum. *)
Lemma energy_Csum (x : list C) :
  RtoC (energy x)
  = Csum (fun k => (nth k x C0 * Cconj (nth k x C0))%C) (length x).
Proof.
  induction x as [| z x IH]; [ reflexivity | ].
  cbn [length]. rewrite Csum_shift. cbn [nth energy fold_right].
  fold (energy x). rewrite RtoC_plus, IH, Cabs_sqr, Cmult_conj. reflexivity.
Qed.

Lemma energy_map_seq (f : nat -> C) (n : nat) :
  RtoC (energy (map f (seq 0 n))) = Csum (fun k => (f k * Cconj (f k))%C) n.
Proof.
  rewrite energy_Csum, length_map, length_seq.
  apply Csum_ext. intros k Hk. now rewrite nth_map_seq.
Qed.

(** Parseval: the forward transform multiplies the energy by the length. *)
Lemma energy_dft (x : list C) : energy (dft x) = INR (length x) * energy x.
Proof.
  apply RtoC_inj. unfold dft.
  rewrite energy_map_seq, RtoC_mult, energy_Csum.
  apply (kernel_energy (length x)
           (fun j k => cis (- (2 * PI * INR j * INR k / INR (length x))))).
  intros; now apply forward_kernel_orthogonal.
Qed.

(** The inverse transform divides the energy by the length. *)
Lemma energy_idft (y : list C) : energy (idft y) = / INR (length y) * energy y.
Proof.
  destruct y as [| z y]; [ simpl; ring | ].
  set (n := length (z :: y)).
  assert (Hn : INR n <> 0) by (apply not_0_INR; unfold n; simpl; lia).
  apply RtoC_inj. unfold idft. fold n.
  rewrite energy_map_seq, RtoC_mult, energy_Csum. fold n.
  rewrite (Csum_ext _ (fun k =>
    (RtoC (/ INR n * / INR n)
     * (Csum (fun j => (nth j (z :: y) C0
                        * cis (2 * PI * INR k * INR j / INR n))%C) n
        * Cconj (Csum (fun j => (nth j (z :: y) C0
                        * cis (2 * PI * INR k * INR j / INR n))%C) n)))%C)).
  - rewrite Csum_scal_l.
    rewrite (kernel_energy n (fun k j => cis (2 * PI * INR k * INR j / INR n)))
      by (intros; now apply inverse_kernel_orthogonal).
    rewrite Cmult_assoc, <- RtoC_mult. f_equal. f_equal. field. exact Hn.
  - intros k _.
    rewrite (Csum_ext (fun j => (nth j (z :: y) C0
                                 * cis (2 * PI * INR j * INR k / INR n))%C)
               (fun j => (nth j (z :: y) C0
                          * cis (2 * PI * INR k * INR j / INR n))%C)).
    + rewrite Cconj_mult.
      generalize (Csum (fun j => (nth j (z :: y) C0
                        * cis (2 * PI * INR k * INR j / INR n))%C) n).
      intros s. generalize (/ INR n). intros r. cring.
    + intros j _. do 2 f_equal. field. exact Hn.
Qed.

End Fourier.

(** * The two operators *)

Section Operators.

Import Np.

Lemma Cexp_Ci (t : R) : Cexp (Ci * RtoC t) = cis t.
Proof.
  unfold Cexp, cis, Cmult, Ci, RtoC, Re, Im; simpl.
  replace (0 * t - 1 * 0) with 0 by ring.
  replace (0 * 0 + 1 * t) with t by ring.
  rewrite exp_0. f_equal; ring.
Qed.

(** The exponent of the dispersion operator is purely imaginary. *)
Lemma dispersion_exponent (b2 b3 w dz : R) :
  ((- Ci) * RtoC (b2 / 2) * RtoC (w ^ 2) * RtoC dz
   - Ci * RtoC (b3 / 6) * RtoC (w ^ 3) * RtoC dz)%C
  = (Ci * RtoC (dispersion_phase b2 b3 w dz))%C.
Proof. unfold dispersion_phase. cplx. f_equal; ring. Qed.

Lemma dispersion_operator_cis (q : QuantumChannel) (dz : R) :
  dispersion_operator q dz
  = map (fun w_k => cis (dispersion_phase (beta2 q) (beta3 q) w_k dz))
      (angular_freq q).
Proof.
  unfold dispersion_operator. apply map_ext. intros w_k.
  now rewrite dispersion_exponent, Cexp_Ci.
Qed.

Lemma length_dispersion_operator (q : QuantumChannel) (dz : R) :
  length (dispersion_operator q dz) = length (angular_freq q).
Proof. unfold dispersion_operator. apply length_map. Qed.

Lemma dispersion_operator_unit (q : QuantumChannel) (dz : R) (D_k : C) :
  In D_k (dispersion_operator q dz) -> Cnorm2 D_k = 1.
Proof.
  rewrite dispersion_operator_cis, in_map_iff.
  intros [w_k [<- _]]. apply Cnorm2_cis.
Qed.

Lemma nonlinear_exponent (g a dz : R) :
  (Ci * RtoC g * RtoC a * RtoC dz)%C = (Ci * RtoC (g * a * dz))%C.
Proof. cplx. f_equal; ring. Qed.

Lemma nonlinear_operator_cis (q : QuantumChannel) (E : list C) (dz : R) :
  nonlinear_operator q E dz
  = map (fun E_k => (E_k * cis (gamma q * Cabs E_k ^ 2 * dz))%C) E.
Proof.
  unfold nonlinear_operator. apply map_ext. intros E_k.
  now rewrite nonlinear_exponent, Cexp_Ci.
Qed.

Lemma length_nonlinear_operator (q : QuantumChannel) (E : list C) (dz : R) :
  length (nonlinear_operator q E dz) = length E.
Proof. unfold nonlinear_operator. apply length_map. Qed.

Lemma zip_with_map {A B D X : Type} (f : A -> B -> D) (g : X -> A)
    (h : X -> B) (l : list X) :
  zip_with f (map g l) (map h l) = map (fun x => f (g x) (h x)) l.
Proof.
  induction l as [| x l IH]; simpl; [ reflexivity | now rewrite IH ].
Qed.

Lemma length_zip_with {A B D : Type} (f : A -> B -> D) (xs : list A)
    (ys : list B) :
  length xs = length ys -> length (zip_with f xs ys) = length xs.
Proof.
  revert ys. induction xs as [| x xs IH]; intros [| y ys] H; simpl in *;
    try discriminate; [ reflexivity | ].
  f_equal. apply IH. lia.
Qed.

Lemma binop_same_length {A B D : Type} (f : A -> B -> D) (xs : list A)
    (ys : list B) :
  length xs = length ys -> binop f xs ys = Ok (zip_with f xs ys).
Proof. intros H. unfold binop. now rewrite H, Nat.eqb_refl. Qed.

Lemma inplace_same_length {A B : Type} (f : A -> B -> A) (xs : list A)
    (ys : list B) :
  length xs = length ys -> inplace f xs ys = Ok (zip_with f xs ys).
Proof. intros H. unfold inplace. now rewrite H, Nat.eqb_refl. Qed.

(** Energy is additive along the array and unchanged by unit factors. *)
Lemma energy_cons (z : C) (E : list C) : energy (z :: E) = Cnorm2 z + energy E.
Proof. unfold energy at 1. cbn [fold_right]. now rewrite Cabs_sqr. Qed.

Lemma energy_zip_unit (E D : list C) :
  length E = length D ->
  (forall D_k, In D_k D -> Cnorm2 D_k = 1) ->
  energy (zip_with Cmult E D) = energy E.
Proof.
  revert D. induction E as [| z E IH]; intros [| d D] Hlen HD;
    simpl in Hlen; try discriminate; [ reflexivity | ].
  cbn [zip_with]. rewrite !energy_cons, Cnorm2_mult, (HD d) by now left.
  rewrite IH; [ ring | lia | ]. intros; apply HD; now right.
Qed.

Lemma energy_map_unit (E : list C) (d : C) :
  Cnorm2 d = 1 -> energy (map (fun z => (z * d)%C) E) = energy E.
Proof.
  intros Hd. induction E as [| z E IH]; [ reflexivity | ].
  cbn [map]. rewrite !energy_cons, Cnorm2_mult, Hd, IH. ring.
Qed.

(** Multiplication by a unit-modulus array, with numpy's stretching of a
    length-one right operand, keeps length and energy. *)
Lemma inplace_unit (E D E' : list C) :
  (forall D_k, In D_k D -> Cnorm2 D_k = 1) ->
  inplace Cmult E D = Ok E' ->
  length E' = length E /\ energy E' = energy E.
Proof.
  intros HD. unfold inplace.
  destruct (Nat.eqb_spec (length E) (length D)) as [Hlen | Hlen].
  - intros [= <-]. split; [ now apply length_zip_with | now apply energy_zip_unit ].
  - destruct D as [| d [| d' D]]; try discriminate.
    intros [= <-]. split; [ apply length_map | ].
    apply energy_map_unit, HD. now left.
Qed.

Lemma dispersion_step_energy (q : QuantumChannel) (dz : R) (E E' : list C) :
  dispersion_step q dz E = Ok E' ->
  length E' = length E /\ energy E' = energy E.
Proof.
  unfold dispersion_step, fft.
  destruct E as [| z E]; [ discriminate | ]. cbn [rbind].
  set (X := dft (z :: E)).
  destruct (inplace Cmult X (dispersion_operator q dz)) as [Y | e] eqn:HY;
    [ | discriminate ].
  cbn [rbind].
  apply inplace_unit in HY; [ | apply dispersion_operator_unit ].
  destruct HY as [HlenY HenY]. unfold X in *. rewrite length_dft in HlenY.
  unfold ifft. destruct Y as [| y Y]; [ discriminate | ].
  intros [= <-]. rewrite length_idft, energy_idft, HlenY, HenY, energy_dft.
  split; [ reflexivity | ].
  field. apply not_0_INR. simpl; lia.
Qed.

Lemma dispersion_step_defined (q : QuantumChannel) (dz : R) (E : list C) :
  E <> [] -> length E = length (angular_freq q) ->
  exists E', dispersion_step q dz E = Ok E'.
Proof.
  intros Hne Hlen. unfold dispersion_step, fft.
  destruct E as [| z E]; [ congruence | ]. cbn [rbind].
  rewrite inplace_same_length
    by now rewrite length_dft, length_dispersion_operator.
  cbn [rbind]. unfold ifft.
  destruct (zip_with Cmult (dft (z :: E)) (dispersion_operator q dz))
    as [| y Y] eqn:HY.
  - apply (f_equal (@length C)) in HY.
    rewrite length_zip_with in HY
      by now rewrite length_dft, length_dispersion_operator.
    rewrite length_dft in HY. discriminate.
  - eexists; reflexivity.
Qed.

End Operators.

(** * Running the propagation *)

Section Run.

Import Np.

Context {fd : FloatDivision}.

Lemma ssfm_body_run (dz : R) (E : list C) (w : world) :
  ssfm_body dz E w = (w, ssfm_step_spec (engine w) dz E).
Proof.
  unfold ssfm_body, ssfm_step_spec, kcomp, bind, attr, lift, ret.
  unfold Stage.nonlinear, Stage.forward, Stage.disperse, Stage.inverse,
    Stage.attenuate.
  cbn [rbind].
  destruct (fft (nonlinear_operator (engine w) E (dz / 2))) as [X | e];
    [ | reflexivity ].
  cbn [rbind].
  destruct (inplace Cmult X (dispersion_operator (engine w) dz)) as [Y | e];
    [ | reflexivity ].
  cbn [rbind].
  destruct (ifft Y) as [E2 | e]; reflexivity.
Qed.

Lemma for_each_ssfm_body {A : Type} (xs : list A) (dz : R) (E : list C)
    (w : world) :
  for_each xs (fun _ E_complex => ssfm_body dz E_complex) E w
  = (w, iterate (length xs) (ssfm_step_spec (engine w) dz) E).
Proof.
  revert E. induction xs as [| x xs IH]; intros E; [ reflexivity | ].
  cbn [for_each length iterate]. unfold bind at 1. rewrite ssfm_body_run.
  destruct (ssfm_step_spec (engine w) dz E) as [E' | e]; [ | reflexivity ].
  apply IH.
Qed.

Lemma report_and_publish_run (event_time : R) (E : list C) (w : world) :
  report_and_publish event_time E w
  = match last_item (output_power E) with
    | Ok P_last =>
        (after_publish w (event_time, P_last)
           {| pub_source := engine w; pub_time := event_time;
              pub_power := output_power E;
              pub_Ex := map Re E; pub_Ey := map Im E;
              pub_magnitude := map sqrt (output_power E) |}, Ok tt)
    | Raise e => (w, Raise e)
    end.
Proof.
  unfold report_and_publish, bind, lift.
  destruct (last_item (output_power E)) as [p | e]; reflexivity.
Qed.

(** [int] truncates towards zero and [range] is empty below one, so the
    number of iterations is that of the floor. *)
Lemma Int_part_nonneg (r : R) : 0 <= r -> (0 <= Int_part r)%Z.
Proof.
  intros H. destruct (base_Int_part r) as [_ H2].
  apply Z.lt_succ_r, lt_IZR. rewrite succ_IZR. lra.
Qed.

Lemma Int_part_neg (r : R) : r < 0 -> (Int_part r < 0)%Z.
Proof.
  intros H. destruct (base_Int_part r) as [H1 _].
  apply lt_IZR. lra.
Qed.

Lemma int_nonneg (r : R) : 0 <= r -> int r = Int_part r.
Proof. intros H. unfold int. destruct (Rle_dec 0 r); [ reflexivity | lra ]. Qed.

Lemma range_int (r : R) : length (range (int r)) = Z.to_nat (Int_part r).
Proof.
  unfold range. rewrite length_seq. unfold int.
  destruct (Rle_dec 0 r) as [H | H]; [ reflexivity | ].
  assert (H1 : (0 <= Int_part (- r))%Z) by (apply Int_part_nonneg; lra).
  assert (H2 : (Int_part r < 0)%Z) by (apply Int_part_neg; lra).
  lia.
Qed.

(** [propagate_signal], step by step. *)
Lemma propagate_signal_run (event_time : R) (t P Ex Ey E : list R) (w : world) :
  propagate_signal event_time t P Ex Ey E w
  = match truediv (fiber_length (engine w)) (step_size (engine w)) with
    | Raise e => (w, Raise e)
    | Ok ratio =>
        match combine_field Ex Ey with
        | Raise e => (w, Raise e)
        | Ok E0 =>
            match iterate (Z.to_nat (Int_part ratio))
                    (ssfm_step_spec (engine w) (step_size (engine w))) E0 with
            | Raise e => (w, Raise e)
            | Ok E1 => report_and_publish event_time E1 w
            end
        end
    end.
Proof.
  unfold propagate_signal.
  unfold bind at 1, attr at 1. unfold bind at 1, attr at 1.
  unfold bind at 1, lift at 1.
  destruct (truediv (fiber_length (engine w)) (step_size (engine w)))
    as [ratio | e]; [ | reflexivity ].
  unfold bind at 1, attr at 1. unfold bind at 1, lift at 1.
  fold (combine_field Ex Ey).
  destruct (combine_field Ex Ey) as [E0 | e]; [ | reflexivity ].
  unfold bind at 1. rewrite for_each_ssfm_body, range_int.
  destruct (iterate (Z.to_nat (Int_part ratio))
              (ssfm_step_spec (engine w) (step_size (engine w))) E0)
    as [E1 | e]; reflexivity.
Qed.

Lemma propagate_spec_run (n : nat) (event_time : R) (Ex Ey : list R)
    (w : world) :
  propagate_spec n event_time Ex Ey w
  = match combine_field Ex Ey with
    | Raise e => (w, Raise e)
    | Ok E0 =>
        match iterate n (ssfm_step_spec (engine w) (step_size (engine w))) E0
        with
        | Raise e => (w, Raise e)
        | Ok E1 => report_and_publish event_time E1 w
        end
    end.
Proof.
  unfold propagate_spec, bind, attr, lift.
  destruct (combine_field Ex Ey) as [E0 | e]; [ | reflexivity ].
  destruct (iterate n (ssfm_step_spec (engine w) (step_size (engine w))) E0);
    reflexivity.
Qed.

Lemma truediv_nonzero (a b : R) : b <> 0 -> truediv a b = Ok (fdiv a b).
Proof. intros H. unfold truediv. destruct (Req_dec_T b 0); congruence. Qed.

Lemma truediv_zero (a : R) : truediv a 0 = Raise ZeroDivisionError.
Proof. unfold truediv. destruct (Req_dec_T 0 0); congruence. Qed.

Lemma truediv_exact_nonzero (a b : R) :
  b <> 0 -> truediv_exact a b = Ok (a / b).
Proof.
  intros H. unfold truediv_exact. destruct (Req_dec_T b 0); congruence.
Qed.

Lemma truediv_exact_zero (a : R) : truediv_exact a 0 = Raise ZeroDivisionError.
Proof. unfold truediv_exact. destruct (Req_dec_T 0 0); congruence. Qed.

(** The rounded quotient reaches 1 exactly when the quotient does, so that
    at least one step is taken exactly when [a / b] is 1 or more. *)
Lemma Int_part_ge_1 (r : R) : (1 <= Int_part r)%Z <-> 1 <= r.
Proof.
  destruct (base_Int_part r) as [H1 H2]. split; intros H.
  - apply IZR_le in H. lra.
  - apply Z.lt_succ_r, Z.succ_lt_mono, lt_IZR. rewrite !succ_IZR. lra.
Qed.

Lemma steps_at_least_one (a b : R) :
  b <> 0 -> ((1 <= Int_part (fdiv a b))%Z <-> (1 <= Int_part (a / b))%Z).
Proof.
  intros Hb. rewrite !Int_part_ge_1. split; intros H.
  - destruct (Rle_lt_dec 1 (a / b)) as [Hle | Hlt]; [ exact Hle | ].
    pose proof (fdiv_below_one a b Hb Hlt). lra.
  - now apply fdiv_above_one.
Qed.

Lemma no_step_below_one (a b : R) :
  b <> 0 -> a / b < 1 -> Z.to_nat (Int_part (fdiv a b)) = O.
Proof.
  intros Hb H. pose proof (fdiv_below_one a b Hb H) as Hf.
  destruct (Z.le_gt_cases 1 (Int_part (fdiv a b))) as [Hge | Hlt]; [ | lia ].
  apply Int_part_ge_1 in Hge. lra.
Qed.

(** The engine object is never assigned. *)
Lemma report_and_publish_engine (event_time : R) (E : list C) (w : world) :
  engine (fst (report_and_publish event_time E w)) = engine w.
Proof.
  rewrite report_and_publish_run.
  destruct (last_item (output_power E)); reflexivity.
Qed.

Lemma propagate_signal_engine (event_time : R) (t P Ex Ey E : list R)
    (w : world) :
  engine (fst (propagate_signal event_time t P Ex Ey E w)) = engine w.
Proof.
  rewrite propagate_signal_run.
  destruct (truediv _ _); [ | reflexivity ].
  destruct (combine_field Ex Ey); [ | reflexivity ].
  destruct (iterate _ _ _); [ | reflexivity ].
  apply report_and_publish_engine.
Qed.

End Run.

(** * Shapes *)

Section Shapes.

Import Np.

Lemma ssfm_step_dispersion_step (q : QuantumChannel) (dz : R) (E : list C) :
  ssfm_step_spec q dz E
  = rbind (dispersion_step q dz (nonlinear_operator q E (dz / 2)))
      (fun E2 => Stage.attenuate q dz (nonlinear_operator q E2 (dz / 2))).
Proof.
  unfold ssfm_step_spec, dispersion_step, kcomp.
  unfold Stage.nonlinear, Stage.forward, Stage.disperse, Stage.inverse.
  cbn [rbind].
  destruct (fft (nonlinear_operator q E (dz / 2))) as [X | e];
    [ | reflexivity ].
  cbn [rbind].
  destruct (inplace Cmult X (dispersion_operator q dz)) as [Y | e];
    [ | reflexivity ].
  cbn [rbind].
  destruct (ifft Y) as [E2 | e]; reflexivity.
Qed.

(** A step on an array that fits the grid succeeds and keeps the length. *)
Lemma ssfm_step_fits (q : QuantumChannel) (dz : R) (E : list C) :
  E <> [] -> length E = length (angular_freq q) ->
  exists E', ssfm_step_spec q dz E = Ok E' /\ length E' = length E.
Proof.
  intros Hne Hlen. rewrite ssfm_step_dispersion_step.
  destruct (dispersion_step_defined q dz (nonlinear_operator q E (dz / 2)))
    as [E2 HE2].
  - intros H. apply Hne. apply (f_equal (@length C)) in H.
    rewrite length_nonlinear_operator in H.
    now apply length_zero_iff_nil.
  - now rewrite length_nonlinear_operator.
  - rewrite HE2. cbn [rbind]. unfold Stage.attenuate.
    eexists; split; [ reflexivity | ].
    apply dispersion_step_energy in HE2. destruct HE2 as [HE2 _].
    now rewrite length_map, length_nonlinear_operator, HE2,
      length_nonlinear_operator.
Qed.

Lemma iterate_fits (q : QuantumChannel) (dz : R) (n : nat) (E : list C) :
  E <> [] -> length E = length (angular_freq q) ->
  exists E', iterate n (ssfm_step_spec q dz) E = Ok E' /\ length E' = length E.
Proof.
  revert E. induction n as [| n IH]; intros E Hne Hlen.
  - exists E. split; reflexivity.
  - cbn [iterate].
    destruct (ssfm_step_fits q dz E Hne Hlen) as [E1 [H1 Hl1]].
    rewrite H1. cbn [rbind].
    destruct (IH E1) as [E' [H' Hl']].
    + intros ->. destruct E; [ congruence | discriminate ].
    + congruence.
    + exists E'. split; [ exact H' | congruence ].
Qed.

(** A step on an array that does not fit the grid raises, unless the grid
    has a single bin, which numpy stretches. *)
Lemma ssfm_step_misfit (q : QuantumChannel) (dz : R) (E : list C) :
  length E <> length (angular_freq q) ->
  length (angular_freq q) <> 1%nat ->
  ssfm_step_spec q dz E = Raise ValueError.
Proof.
  intros Hlen H1.
  unfold ssfm_step_spec, kcomp, Stage.nonlinear, Stage.forward. cbn [rbind].
  pose proof (length_nonlinear_operator q E (dz / 2)) as HN.
  unfold fft.
  destruct (nonlinear_operator q E (dz / 2)) as [| z E0] eqn:HE;
    [ reflexivity | ].
  cbn [rbind]. unfold Stage.disperse at 1, inplace.
  rewrite length_dft, length_dispersion_operator, HN.
  destruct (Nat.eqb_spec (length E) (length (angular_freq q))); [ contradiction | ].
  pose proof (length_dispersion_operator q dz) as HD.
  destruct (dispersion_operator q dz) as [| d [| d' D]]; try reflexivity.
  simpl in HD. congruence.
Qed.

Lemma combine_field_same_length (Ex Ey : list R) :
  length Ex = length Ey ->
  exists E0, combine_field Ex Ey = Ok E0 /\ length E0 = length Ex
             /\ map Re E0 = Ex /\ map Im E0 = Ey.
Proof.
  intros Hlen. unfold combine_field.
  rewrite binop_same_length by now rewrite length_map.
  eexists; split; [ reflexivity | ].
  split; [ apply length_zip_with; now rewrite length_map | ].
  revert Ey Hlen.
  induction Ex as [| x Ex IH]; intros [| y Ey] Hlen; simpl in Hlen;
    try discriminate; [ split; reflexivity | ].
  destruct (IH Ey) as [H1 H2]; [ lia | ].
  cbn [map zip_with]. rewrite H1, H2.
  unfold Re, Im, Cplus, Cmult, RtoC, Ci; simpl. split; f_equal; ring.
Qed.

Lemma length_output_power (E : list C) : length (output_power E) = length E.
Proof.
  unfold output_power.
  rewrite length_zip_with by now rewrite !length_map.
  now rewrite !length_map.
Qed.

Lemma last_item_defined (xs : list R) :
  xs <> [] -> exists x, last_item xs = Ok x.
Proof. destruct xs as [| x xs]; [ congruence | eexists; reflexivity ]. Qed.

End Shapes.

(** * Construction *)

Section Construction.

Import Np.

Lemma picosecond_nonzero : 1e-12 <> 0.
Proof. lra. Qed.

Lemma length_arange (lo hi : Z) : length (arange lo hi) = Z.to_nat (hi - lo).
Proof. unfold arange. now rewrite length_map, length_seq. Qed.

Lemma length_frequency_bins (n : Z) :
  (0 < n)%Z -> length (frequency_bins n) = Z.to_nat n.
Proof.
  intros H. unfold frequency_bins.
  rewrite length_app, !length_arange.
  pose proof (Z.div_mod (n - 1) 2 ltac:(lia)) as H1.
  pose proof (Z.mod_pos_bound (n - 1) 2 ltac:(lia)) as H2.
  pose proof (Z.div_mod n 2 ltac:(lia)) as H3.
  pose proof (Z.mod_pos_bound n 2 ltac:(lia)) as H4.
  lia.
Qed.

Lemma fftfreq_positive (n : Z) (d : R) :
  (0 < n)%Z -> d <> 0 ->
  fftfreq n d
  = Ok (map (fun k => IZR k * (1 / (IZR n * d))) (frequency_bins n)).
Proof.
  intros Hn Hd. unfold fftfreq.
  rewrite truediv_exact_nonzero.
  - cbn [rbind]. destruct (Z.ltb_spec n 0); [ lia | reflexivity ].
  - apply Rmult_integral_contrapositive_currified; [ | exact Hd ].
    apply not_0_IZR. lia.
Qed.

Lemma fftfreq_zero (d : R) : fftfreq 0 d = Raise ZeroDivisionError.
Proof. unfold fftfreq. rewrite Rmult_0_l, truediv_exact_zero. reflexivity. Qed.

Lemma fftfreq_negative (n : Z) (d : R) :
  (n < 0)%Z -> d <> 0 -> fftfreq n d = Raise ValueError.
Proof.
  intros Hn Hd. unfold fftfreq.
  rewrite truediv_exact_nonzero.
  - cbn [rbind]. destruct (Z.ltb_spec n 0); [ reflexivity | lia ].
  - apply Rmult_integral_contrapositive_currified; [ | exact Hd ].
    apply not_0_IZR. lia.
Qed.

(** The range of a double. *)
Lemma double_overflow_above_1 : 1 < double_overflow.
Proof. unfold double_overflow. apply IZR_lt. reflexivity. Qed.

Lemma float_pow_in_range (x y : R) :
  Rpower x y < double_overflow -> float_pow x y = Ok (Rpower x y).
Proof.
  intros H. unfold float_pow.
  destruct (Rlt_dec (Rpower x y) double_overflow); [ reflexivity | contradiction ].
Qed.

Lemma float_pow_overflow (x y : R) :
  double_overflow <= Rpower x y -> float_pow x y = Raise OverflowError.
Proof.
  intros H. unfold float_pow.
  destruct (Rlt_dec (Rpower x y) double_overflow); [ lra | reflexivity ].
Qed.

(** A loss, or no attenuation at all, gives a factor of at most 1. *)
Lemma attenuation_in_range_loss (a : R) :
  0 <= a -> Rpower 10 (- a / 10) < double_overflow.
Proof.
  intros Ha. apply Rle_lt_trans with (r2 := 1);
    [ | apply double_overflow_above_1 ].
  rewrite <- (Rpower_O 10) by lra. apply Rle_Rpower; lra.
Qed.





Lemma init_positive (L a b2 b3 dg g : R) (N : Z) (dz : R) :
  Rpower 10 (- a / 10) < double_overflow -> (0 < N)%Z ->
  __init__ L a b2 b3 dg g N dz = Ok (stored L a b2 b3 dg g N dz).
Proof.
  intros Ha HN. unfold __init__.
  rewrite float_pow_in_range by assumption. cbn [rbind].
  rewrite fftfreq_positive by (try assumption; apply picosecond_nonzero).
  reflexivity.
Qed.

Lemma init_zero (L a b2 b3 dg g dz : R) :
  Rpower 10 (- a / 10) < double_overflow ->
  __init__ L a b2 b3 dg g 0 dz = Raise ZeroDivisionError.
Proof.
  intros Ha. unfold __init__.
  rewrite float_pow_in_range by assumption. cbn [rbind].
  now rewrite fftfreq_zero.
Qed.

Lemma init_negative (L a b2 b3 dg g : R) (N : Z) (dz : R) :
  Rpower 10 (- a / 10) < double_overflow -> (N < 0)%Z ->
  __init__ L a b2 b3 dg g N dz = Raise ValueError.
Proof.
  intros Ha HN. unfold __init__.
  rewrite float_pow_in_range by assumption. cbn [rbind].
  now rewrite fftfreq_negative by (try assumption; apply picosecond_nonzero).
Qed.

Lemma init_overflow (L a b2 b3 dg g : R) (N : Z) (dz : R) :
  double_overflow <= Rpower 10 (- a / 10) ->
  __init__ L a b2 b3 dg g N dz = Raise OverflowError.
Proof.
  intros Ha. unfold __init__. now rewrite float_pow_overflow.
Qed.

Lemma init_positive_loss (L a b2 b3 dg g : R) (N : Z) (dz : R) :
  0 <= a -> (0 < N)%Z ->
  __init__ L a b2 b3 dg g N dz = Ok (stored L a b2 b3 dg g N dz).
Proof.
  intros Ha HN. apply init_positive; [ | exact HN ].
  now apply attenuation_in_range_loss.
Qed.

(** What a successful construction guarantees. *)
Lemma init_inversion (L a b2 b3 dg g : R) (N : Z) (dz : R)
    (q : QuantumChannel) :
  __init__ L a b2 b3 dg g N dz = Ok q ->
  (0 < N)%Z /\ q = stored L a b2 b3 dg g N dz.
Proof.
  intros H.
  destruct (Rlt_le_dec (Rpower 10 (- a / 10)) double_overflow) as [Ha | Ha].
  2:{ rewrite init_overflow in H by assumption. discriminate. }
  destruct (Z.lt_trichotomy N 0) as [Hn | [-> | Hp]].
  - rewrite init_negative in H by assumption. discriminate.
  - rewrite init_zero in H by assumption. discriminate.
  - rewrite init_positive in H by assumption. split; congruence.
Qed.

(** The stored attenuation factor is positive, which is what the reading
    of [attenuation ** dz] as [Rpower] relies on. *)
Lemma init_attenuation_positive (L a b2 b3 dg g : R) (N : Z) (dz : R)
    (q : QuantumChannel) :
  __init__ L a b2 b3 dg g N dz = Ok q -> 0 < attenuation q.
Proof.
  intros H. apply init_inversion in H. destruct H as [_ ->].
  unfold stored; cbn [attenuation]. unfold Rpower. apply exp_pos.
Qed.

Lemma length_stored_grid (L a b2 b3 dg g : R) (N : Z) (dz : R) :
  (0 < N)%Z ->
  length (angular_freq (stored L a b2 b3 dg g N dz)) = Z.to_nat N.
Proof.
  intros HN. unfold stored; cbn [angular_freq].
  now rewrite !length_map, length_frequency_bins.
Qed.

End Construction.

(** * Whole calls *)

Section Calls.

Import Np.

Context {fd : FloatDivision}.

(** A call whose field arrays fit the grid returns normally. *)
Lemma propagate_signal_fits (event_time : R) (t P Ex Ey E : list R)
    (w : world) :
  step_size (engine w) <> 0 ->
  Ex <> [] -> length Ex = length Ey ->
  length Ex = length (angular_freq (engine w)) ->
  exists E1 P_last,
    length E1 = length Ex
    /\ last_item (output_power E1) = Ok P_last
    /\ propagate_signal event_time t P Ex Ey E w
       = (after_publish w (event_time, P_last)
            {| pub_source := engine w; pub_time := event_time;
               pub_power := output_power E1;
               pub_Ex := map Re E1; pub_Ey := map Im E1;
               pub_magnitude := map sqrt (output_power E1) |}, Ok tt).
Proof.
  intros Hdz Hne Hxy Hfit.
  rewrite propagate_signal_run, truediv_nonzero by assumption.
  destruct (combine_field_same_length Ex Ey Hxy) as [E0 [H0 [Hl0 _]]].
  rewrite H0.
  destruct (iterate_fits (engine w) (step_size (engine w))
              (Z.to_nat (Int_part (fdiv (fiber_length (engine w))
                                     (step_size (engine w))))) E0)
    as [E1 [H1 Hl1]].
  - intros ->. destruct Ex; [ congruence | discriminate ].
  - congruence.
  - rewrite H1, report_and_publish_run.
    destruct (last_item_defined (output_power E1)) as [p Hp].
    + intros H. apply (f_equal (@length R)) in H.
      rewrite length_output_power in H.
      destruct Ex; [ congruence | simpl in *; lia ].
    + rewrite Hp. exists E1, p.
      split; [ congruence | split; [ exact Hp | reflexivity ] ].
Qed.

(** A call whose field arrays do not fit the grid raises in its first
    step. *)
Lemma propagate_signal_misfit (event_time : R) (t P Ex Ey E : list R)
    (w : world) :
  step_size (engine w) <> 0 ->
  (1 <= Int_part (fdiv (fiber_length (engine w)) (step_size (engine w))))%Z ->
  length Ex = length Ey ->
  length Ex <> length (angular_freq (engine w)) ->
  length (angular_freq (engine w)) <> 1%nat ->
  propagate_signal event_time t P Ex Ey E w = (w, Raise ValueError).
Proof.
  intros Hdz Hsteps Hxy Hfit H1.
  rewrite propagate_signal_run, truediv_nonzero by assumption.
  destruct (combine_field_same_length Ex Ey Hxy) as [E0 [H0 [Hl0 _]]].
  rewrite H0.
  destruct (Z.to_nat (Int_part (fdiv (fiber_length (engine w))
                                  (step_size (engine w))))) as [| n] eqn:Hn;
    [ lia | ].
  cbn [iterate]. rewrite ssfm_step_misfit by congruence. reflexivity.
Qed.

(** ** The channel without dispersion, non-linearity and loss *)

Lemma map_fixed {A : Type} (f : A -> A) (l : list A) :
  (forall a, f a = a) -> map f l = l.
Proof.
  intros H. induction l as [| a l IH]; simpl; [ reflexivity | ].
  now rewrite H, IH.
Qed.

Lemma Rpower_base_1 (x : R) : Rpower 1 x = 1.
Proof. unfold Rpower. now rewrite ln_1, Rmult_0_r, exp_0. Qed.

Lemma null_nonlinear_operator (q : QuantumChannel) (E : list C) (h : R) :
  gamma q = 0 -> nonlinear_operator q E h = E.
Proof.
  intros Hg. rewrite nonlinear_operator_cis, Hg.
  apply map_fixed. intros z.
  replace (0 * Cabs z ^ 2 * h) with 0 by ring.
  rewrite cis_0. apply Cmult_1_r.
Qed.

Lemma null_dispersion_operator (q : QuantumChannel) (dz : R) :
  beta2 q = 0 -> beta3 q = 0 ->
  dispersion_operator q dz = map (fun _ => C1) (angular_freq q).
Proof.
  intros H2 H3. rewrite dispersion_operator_cis, H2, H3.
  apply map_ext. intros w_k. unfold dispersion_phase.
  replace (- (0 / 2 * w_k ^ 2 * dz) - 0 / 6 * w_k ^ 3 * dz) with 0 by field.
  apply cis_0.
Qed.

Lemma zip_with_ones {A : Type} (X : list C) (ws : list A) :
  length X = length ws ->
  zip_with Cmult X (map (fun _ => C1) ws) = X.
Proof.
  revert ws. induction X as [| x X IH]; intros [| v ws] H; simpl in H;
    try discriminate; [ reflexivity | ].
  cbn [map zip_with]. rewrite Cmult_1_r, IH by lia. reflexivity.
Qed.

Lemma inplace_ones {A : Type} (X X' : list C) (ws : list A) :
  inplace Cmult X (map (fun _ => C1) ws) = Ok X' -> X' = X.
Proof.
  unfold inplace. rewrite length_map.
  destruct (Nat.eqb_spec (length X) (length ws)) as [H | H].
  - intros [= <-]. now apply zip_with_ones.
  - destruct ws as [| v [| v' ws]]; try discriminate.
    cbn [map]. intros [= <-].
    apply map_fixed. intros z. apply Cmult_1_r.
Qed.

Lemma null_dispersion_step (q : QuantumChannel) (dz : R) (E E' : list C) :
  beta2 q = 0 -> beta3 q = 0 -> dispersion_step q dz E = Ok E' -> E' = E.
Proof.
  intros H2 H3. unfold dispersion_step, fft.
  destruct E as [| z E]; [ discriminate | ]. cbn [rbind].
  rewrite null_dispersion_operator by assumption.
  destruct (inplace Cmult (dft (z :: E)) (map (fun _ => C1) (angular_freq q)))
    as [Y | e] eqn:HY; [ | discriminate ].
  apply inplace_ones in HY. subst Y. cbn [rbind].
  unfold ifft. destruct (dft (z :: E)) as [| y Y] eqn:HX; [ discriminate | ].
  rewrite <- HX, idft_dft. congruence.
Qed.

Lemma null_step (q : QuantumChannel) (dz : R) (E E' : list C) :
  beta2 q = 0 -> beta3 q = 0 -> gamma q = 0 -> attenuation q = 1 ->
  ssfm_step_spec q dz E = Ok E' -> E' = E.
Proof.
  intros H2 H3 Hg Ha.
  rewrite ssfm_step_dispersion_step, null_nonlinear_operator by assumption.
  destruct (dispersion_step q dz E) as [E2 | e] eqn:HD; [ | discriminate ].
  apply null_dispersion_step in HD; try assumption. subst E2.
  cbn [rbind]. unfold Stage.attenuate.
  rewrite null_nonlinear_operator, Ha, Rpower_base_1 by assumption.
  intros H. injection H as <-.
  apply map_fixed. intros c. apply Cmult_1_r.
Qed.

Lemma null_iterate (q : QuantumChannel) (dz : R) (n : nat) (E E' : list C) :
  beta2 q = 0 -> beta3 q = 0 -> gamma q = 0 -> attenuation q = 1 ->
  iterate n (ssfm_step_spec q dz) E = Ok E' -> E' = E.
Proof.
  intros H2 H3 Hg Ha. revert E.
  induction n as [| n IH]; intros E; cbn [iterate].
  - now intros [= <-].
  - destruct (ssfm_step_spec q dz E) as [E1 | e] eqn:H1; [ | discriminate ].
    cbn [rbind]. intros H. apply IH in H.
    apply null_step in H1; try assumption. congruence.
Qed.

Lemma null_stored (L dg : R) (N : Z) (dz : R) :
  beta2 (stored L 0 0 0 dg 0 N dz) = 0
  /\ beta3 (stored L 0 0 0 dg 0 N dz) = 0
  /\ gamma (stored L 0 0 0 dg 0 N dz) = 0
  /\ attenuation (stored L 0 0 0 dg 0 N dz) = 1.
Proof.
  unfold stored; cbn [beta2 beta3 gamma attenuation].
  repeat split; try lra.
  replace (- 0 / 10) with 0 by lra. apply Rpower_O. lra.
Qed.

End Calls.

(** * The claims of the specification *)

Section Claims.

Import Np.

Context {fd : FloatDivision}.

Lemma propagate_signal_field (event_time : R) (t P Ex Ey E : list R)
    (w : world) :
  propagate_signal event_time t P Ex Ey E w
  = match propagated_field (engine w) Ex Ey with
    | Ok E1 => report_and_publish event_time E1 w
    | Raise e => (w, Raise e)
    end.
Proof.
  rewrite propagate_signal_run. unfold propagated_field.
  destruct (truediv _ _); [ | reflexivity ]. cbn [rbind].
  destruct (combine_field Ex Ey); reflexivity.
Qed.

Lemma propagated_field_dg_delay (q : QuantumChannel) (d : R) (Ex Ey : list R) :
  propagated_field (with_dg_delay d q) Ex Ey = propagated_field q Ex Ey.
Proof. reflexivity. Qed.

(** C1.  Whenever the step size is not zero, [propagate_signal] behaves as
    the propagation of the specification with [n] steps, where [n] is the
    floor of the quotient [fiber_length / step_size] that the float division
    of line 94 returns (no step when that floor is negative); each step is
    [ssfm_step_spec]: the non-linear operator over [dz / 2], the forward
    transform, the multiplication by the dispersion operator at [dz], the
    inverse transform, the non-linear operator over [dz / 2] again, and the
    scaling by [attenuation ** dz], in this order. *)
Theorem propagate_signal_steps (w : world) (event_time : R)
    (t P Ex Ey E : list R) :
  step_size (engine w) <> 0 ->
  exists n : nat,
    n = Z.to_nat (Int_part (fdiv (fiber_length (engine w))
                              (step_size (engine w))))
    /\ (0 <= fdiv (fiber_length (engine w)) (step_size (engine w)) ->
        Z.of_nat n = Int_part (fdiv (fiber_length (engine w))
                                 (step_size (engine w))))
    /\ propagate_signal event_time t P Ex Ey E w
       = propagate_spec n event_time Ex Ey w.
Proof.
  intros Hdz. eexists. split; [ reflexivity | ]. split.
  - intros H. apply Z2Nat.id, Int_part_nonneg, H.
  - rewrite propagate_signal_run, propagate_spec_run,
      truediv_nonzero by assumption.
    reflexivity.
Qed.

(** C2.  The [k]-th element of [dispersion_operator dz] is
    [exp(i * phase)] with [phase = -(beta2/2) w_k^2 dz - (beta3/6) w_k^3 dz]
    at the [k]-th angular frequency, and there are as many elements as
    frequencies; the right-hand side reads only [dz], the grid and the
    stored [beta2] and [beta3]. *)
Theorem dispersion_operator_formula (q : QuantumChannel) (dz : R) (k : nat) :
  nth_error (dispersion_operator q dz) k
  = option_map
      (fun w_k =>
         Cexp (Ci * RtoC (dispersion_phase (beta2 q) (beta3 q) w_k dz))%C)
      (nth_error (angular_freq q) k).
Proof.
  unfold dispersion_operator. rewrite nth_error_map.
  destruct (nth_error (angular_freq q) k) as [w_k |]; [ | reflexivity ].
  cbn [option_map]. now rewrite dispersion_exponent.
Qed.

(** C3.  The [k]-th element of [nonlinear_operator E dz] is
    [E_k * exp(i * gamma * |E_k|^2 * dz)], computed from [E_k] alone, and
    has the modulus of [E_k]. *)
Theorem nonlinear_operator_pointwise (q : QuantumChannel) (E : list C)
    (dz : R) (k : nat) :
  nth_error (nonlinear_operator q E dz) k
  = option_map
      (fun E_k => (E_k * Cexp (Ci * RtoC (gamma q * Cabs E_k ^ 2 * dz)))%C)
      (nth_error E k)
  /\ option_map Cabs (nth_error (nonlinear_operator q E dz) k)
     = option_map Cabs (nth_error E k).
Proof.
  unfold nonlinear_operator. rewrite nth_error_map.
  destruct (nth_error E k) as [E_k |]; [ | split; reflexivity ].
  cbn [option_map]. rewrite nonlinear_exponent. split; [ reflexivity | ].
  rewrite Cexp_Ci, Cabs_mult, Cabs_cis, Rmult_1_r. reflexivity.
Qed.

(** C4.  The dispersion operator at [dz1 + dz2] is the elementwise product
    of the operators at [dz1] and at [dz2]. *)
Theorem dispersion_operator_additive (q : QuantumChannel) (dz1 dz2 : R) :
  binop Cmult (dispersion_operator q dz1) (dispersion_operator q dz2)
  = Ok (dispersion_operator q (dz1 + dz2)).
Proof.
  rewrite binop_same_length by now rewrite !length_dispersion_operator.
  rewrite !dispersion_operator_cis, zip_with_map. f_equal.
  apply map_ext. intros w_k. rewrite <- cis_plus. f_equal.
  unfold dispersion_phase. ring.
Qed.

(** C5.  Every element of the dispersion operator has modulus one; a
    dispersion step (forward transform, multiplication by the operator,
    inverse transform) that returns leaves the total energy unchanged; and
    it does return on every non-empty array that fits the grid. *)
Theorem dispersion_step_lossless (q : QuantumChannel) (dz : R) :
  (forall D_k, In D_k (dispersion_operator q dz) -> Cabs D_k = 1)
  /\ (forall E E', dispersion_step q dz E = Ok E' -> energy E' = energy E)
  /\ (forall E, E <> [] -> length E = length (angular_freq q) ->
      exists E', dispersion_step q dz E = Ok E').
Proof.
  split; [ | split ].
  - intros D_k H. unfold Cabs.
    rewrite (dispersion_operator_unit q dz D_k H). apply sqrt_1.
  - intros E E' H. now apply dispersion_step_energy in H.
  - intros E Hne Hlen. now apply dispersion_step_defined.
Qed.


(** C7.  A channel constructed with [beta2 = beta3 = gamma = 0] and an
    attenuation of 0 dB/km publishes its input: whenever a call on [Ex] and
    [Ey] of one length returns, the published field is [Ex], [Ey]; and with
    a non-zero step size every call on arrays of the configured length does
    return.  (Exact arithmetic: equality stands for equality up to
    rounding.) *)
Theorem null_channel_is_identity (L dg : R) (N : Z) (dz : R)
    (q : QuantumChannel) (w : world) (event_time : R) (t P Ex Ey E : list R) :
  __init__ L 0 0 0 dg 0 N dz = Ok q -> engine w = q ->
  length Ex = length Ey ->
  (forall w', propagate_signal event_time t P Ex Ey E w = (w', Ok tt) ->
     exists P_last,
       w' = after_publish w (event_time, P_last)
              {| pub_source := q; pub_time := event_time;
                 pub_power :=
                   zip_with Rplus (map (fun x => x ^ 2) Ex)
                     (map (fun y => y ^ 2) Ey);
                 pub_Ex := Ex; pub_Ey := Ey;
                 pub_magnitude :=
                   map sqrt (zip_with Rplus (map (fun x => x ^ 2) Ex)
                               (map (fun y => y ^ 2) Ey)) |})
  /\ (dz <> 0 -> length Ex = Z.to_nat N ->
      exists w', propagate_signal event_time t P Ex Ey E w = (w', Ok tt)).
Proof.
  intros Hinit Hw Hxy.
  apply init_inversion in Hinit. destruct Hinit as [HN Hq].
  destruct (null_stored L dg N dz) as [H2 [H3 [Hg Ha]]].
  rewrite <- Hq, <- Hw in H2, H3, Hg, Ha.
  split.
  - intros w'. rewrite propagate_signal_run.
    destruct (truediv _ _) as [ratio | e]; [ | discriminate ].
    destruct (combine_field_same_length Ex Ey Hxy) as [E0 [H0 [_ [Hre Him]]]].
    rewrite H0.
    destruct (iterate _ _ E0) as [E1 | e] eqn:H1; [ | discriminate ].
    apply null_iterate in H1; try assumption. subst E1.
    rewrite report_and_publish_run. unfold output_power.
    rewrite Hre, Him, Hw.
    destruct (last_item _) as [p | e]; [ | discriminate ].
    intros [= <-]. exists p. reflexivity.
  - intros Hdz HlenN.
    destruct (propagate_signal_fits event_time t P Ex Ey E w)
      as [E1 [p [_ [_ Hrun]]]].
    + rewrite Hw, Hq. exact Hdz.
    + intros ->. simpl in HlenN. lia.
    + exact Hxy.
    + rewrite Hw, Hq, length_stored_grid by assumption. exact HlenN.
    + rewrite Hrun. eexists; reflexivity.
Qed.

(** A zero step size makes the call raise at line 94, before the loop. *)
Lemma propagate_signal_zero_step (event_time : R) (t P Ex Ey E : list R)
    (w : world) :
  step_size (engine w) = 0 ->
  propagate_signal event_time t P Ex Ey E w = (w, Raise ZeroDivisionError).
Proof.
  intros H. rewrite propagate_signal_run, H, truediv_zero. reflexivity.
Qed.

(** The number of steps follows the rounded quotient: when the float
    division returns a value between [k] and [k + 1], exactly [k] steps are
    taken, whatever the exact quotient is.  (Binary64 returns
    2.9999999999999996 for [0.3 / 0.1], hence two steps, and 500.0 for
    [50.0 / 0.1], hence five hundred.) *)
Lemma steps_follow_rounded_quotient (k : nat) (event_time : R)
    (t P Ex Ey E : list R) (w : world) :
  step_size (engine w) <> 0 ->
  INR k <= fdiv (fiber_length (engine w)) (step_size (engine w)) < INR k + 1 ->
  propagate_signal event_time t P Ex Ey E w
  = propagate_spec k event_time Ex Ey w.
Proof.
  intros Hdz [Hlo Hhi].
  rewrite propagate_signal_run, propagate_spec_run,
    truediv_nonzero by assumption.
  rewrite <- (Int_part_spec _ (Z.of_nat k)), Nat2Z.id;
    [ reflexivity | ].
  rewrite <- INR_IZR_INZ. lra.
Qed.



(** C9.  The constructor stores the converted differential group delay,
    and two constructions that differ in it give engines that differ in
    that attribute alone; [propagate_signal] on two engines that differ in
    [dg_delay] alone returns or raises alike, prints the same line and
    publishes the same arrays. *)
Theorem dg_delay_is_inert (L a b2 b3 d1 d2 g : R) (N : Z) (dz : R)
    (q : QuantumChannel) (d : R) (w : world) (event_time : R)
    (t P Ex Ey E : list R) :
  rbind (__init__ L a b2 b3 d1 g N dz) (fun q1 => Ok (dg_delay q1))
  = rbind (__init__ L a b2 b3 d1 g N dz) (fun _ => Ok (d1 * 1e-12))
  /\ __init__ L a b2 b3 d2 g N dz
     = rbind (__init__ L a b2 b3 d1 g N dz)
         (fun q1 => Ok (with_dg_delay (d2 * 1e-12) q1))
  /\ snd (propagate_signal event_time t P Ex Ey E
            (with_engine (with_dg_delay d q) w))
     = snd (propagate_signal event_time t P Ex Ey E (with_engine q w))
  /\ console (fst (propagate_signal event_time t P Ex Ey E
                     (with_engine (with_dg_delay d q) w)))
     = console (fst (propagate_signal event_time t P Ex Ey E
                       (with_engine q w)))
  /\ map pub_arrays
       (timeline (fst (propagate_signal event_time t P Ex Ey E
                         (with_engine (with_dg_delay d q) w))))
     = map pub_arrays
         (timeline (fst (propagate_signal event_time t P Ex Ey E
                           (with_engine q w)))).
Proof.
  split; [ | split ].
  - destruct (Rlt_le_dec (Rpower 10 (- a / 10)) double_overflow) as [Ha | Ha];
      [ | now rewrite init_overflow ].
    destruct (Z.lt_trichotomy N 0) as [Hn | [-> | Hp]].
    + now rewrite init_negative.
    + now rewrite init_zero.
    + now rewrite init_positive.
  - destruct (Rlt_le_dec (Rpower 10 (- a / 10)) double_overflow) as [Ha | Ha];
      [ | now rewrite !init_overflow ].
    destruct (Z.lt_trichotomy N 0) as [Hn | [-> | Hp]].
    + now rewrite !init_negative.
    + now rewrite !init_zero.
    + now rewrite !init_positive.
  - rewrite !propagate_signal_field.
    cbn [engine with_engine]. rewrite propagated_field_dg_delay.
    destruct (propagated_field q Ex Ey) as [E1 | e];
      [ | repeat split; reflexivity ].
    rewrite !report_and_publish_run.
    destruct (last_item (output_power E1)); repeat split; reflexivity.
Qed.

(** C10.  The outcome of [propagate_signal] is the same whatever [t], [P]
    and [E] are; when the call returns, the timeline has received one more
    publication, whose source is the engine, whose time is [event_time],
    and whose arrays are computed from the field that [propagated_field]
    derives from the engine, [Ex] and [Ey] alone. *)
Theorem unused_arguments (w : world) (event_time : R)
    (t P Ex Ey E t' P' E' : list R) :
  propagate_signal event_time t P Ex Ey E w
  = propagate_signal event_time t' P' Ex Ey E' w
  /\ (forall w', propagate_signal event_time t P Ex Ey E w = (w', Ok tt) ->
      exists p E1,
        propagated_field (engine w) Ex Ey = Ok E1
        /\ timeline w' = p :: timeline w
        /\ pub_source p = engine w
        /\ pub_time p = event_time
        /\ pub_arrays p
           = (output_power E1, map Re E1, map Im E1,
              map sqrt (output_power E1))).
Proof.
  split.
  - now rewrite !propagate_signal_field.
  - intros w'. rewrite propagate_signal_field.
    destruct (propagated_field (engine w) Ex Ey) as [E1 | e];
      [ | discriminate ].
    rewrite report_and_publish_run.
    destruct (last_item (output_power E1)) as [p | e]; [ | discriminate ].
    intros [= <-]. eexists; exists E1.
    repeat split; reflexivity.
Qed.

End Claims.

(** * Further properties of the operators *)

Section OperatorAlgebra.

Import Np.

(** The other round trip: the forward transform undoes the inverse one. *)
Lemma dft_idft (y : list C) : dft (idft y) = y.
Proof.
  apply nth_ext with (d := C0) (d' := C0).
  - now rewrite length_dft, length_idft.
  - intros k Hk. rewrite length_dft, length_idft in Hk.
    unfold dft. rewrite length_idft, nth_map_seq by assumption.
    set (n := length y) in *.
    assert (Hn : INR n <> 0) by (apply not_0_INR; lia).
    rewrite (Csum_ext _ (fun l =>
      (RtoC (/ INR n)
       * (Csum (fun j => (nth j y C0 * cis (2 * PI * INR l * INR j / INR n))%C) n
          * Cconj (cis (2 * PI * INR l * INR k / INR n))))%C)).
    + rewrite Csum_scal_l.
      rewrite (kernel_inversion n
                 (fun l j => cis (2 * PI * INR l * INR j / INR n)))
        by (try assumption; intros; now apply inverse_kernel_orthogonal).
      rewrite Cmult_assoc, <- RtoC_mult.
      replace (/ INR n * INR n) with 1 by (field; exact Hn).
      apply Cmult_1_l.
    + intros l Hl. unfold idft. fold n. rewrite nth_map_seq by assumption.
      rewrite <- cis_neg, <- Cmult_assoc. f_equal. f_equal.
      * apply Csum_ext. intros j _. do 2 f_equal. field. exact Hn.
      * f_equal. field. exact Hn.
Qed.

Lemma zip_with_Cmult_assoc (X D1 D2 : list C) :
  zip_with Cmult (zip_with Cmult X D1) D2
  = zip_with Cmult X (zip_with Cmult D1 D2).
Proof.
  revert D1 D2. induction X as [| x X IH]; intros [| d1 D1] [| d2 D2];
    try reflexivity.
  cbn [zip_with]. now rewrite IH, Cmult_assoc.
Qed.

Lemma dispersion_operator_product (q : QuantumChannel) (dz1 dz2 : R) :
  zip_with Cmult (dispersion_operator q dz1) (dispersion_operator q dz2)
  = dispersion_operator q (dz1 + dz2).
Proof.
  rewrite !dispersion_operator_cis, zip_with_map.
  apply map_ext. intros w_k. rewrite <- cis_plus. f_equal.
  unfold dispersion_phase. ring.
Qed.

Lemma dispersion_operator_zero (q : QuantumChannel) :
  dispersion_operator q 0 = map (fun _ => C1) (angular_freq q).
Proof.
  rewrite dispersion_operator_cis. apply map_ext. intros w_k.
  unfold dispersion_phase.
  replace (- (beta2 q / 2 * w_k ^ 2 * 0) - beta3 q / 6 * w_k ^ 3 * 0)
    with 0 by ring.
  apply cis_0.
Qed.

(** The dispersion step on an array that fits the grid, in closed form. *)
Lemma dispersion_step_fits (q : QuantumChannel) (dz : R) (E : list C) :
  E <> [] -> length E = length (angular_freq q) ->
  dispersion_step q dz E
  = Ok (idft (zip_with Cmult (dft E) (dispersion_operator q dz))).
Proof.
  intros Hne Hlen. unfold dispersion_step, fft.
  destruct E as [| z E]; [ congruence | ]. cbn [rbind].
  rewrite inplace_same_length
    by now rewrite length_dft, length_dispersion_operator.
  cbn [rbind]. unfold ifft.
  destruct (zip_with Cmult (dft (z :: E)) (dispersion_operator q dz))
    as [| y Y] eqn:HY; [ | reflexivity ].
  apply (f_equal (@length C)) in HY.
  rewrite length_zip_with in HY
    by now rewrite length_dft, length_dispersion_operator.
  rewrite length_dft in HY. discriminate.
Qed.

Lemma energy_nonlinear_operator (q : QuantumChannel) (E : list C) (dz : R) :
  energy (nonlinear_operator q E dz) = energy E.
Proof.
  rewrite nonlinear_operator_cis.
  induction E as [| z E IH]; [ reflexivity | ].
  cbn [map]. rewrite !energy_cons, Cnorm2_mult, Cnorm2_cis, IH. ring.
Qed.

Lemma energy_scale (E : list C) (r : R) :
  energy (map (fun z => (z * RtoC r)%C) E) = r ^ 2 * energy E.
Proof.
  induction E as [| z E IH]; [ simpl; ring | ].
  cbn [map]. rewrite !energy_cons, Cnorm2_mult, IH.
  unfold Cnorm2, RtoC, Re, Im; simpl. ring.
Qed.

(** X1.  Two successive applications of the non-linear operator, over
    [dz1] and then [dz2], are one application over [dz1 + dz2]; over a zero
    step the operator changes nothing. *)
Theorem nonlinear_operator_flow (q : QuantumChannel) (E : list C)
    (dz1 dz2 : R) :
  nonlinear_operator q (nonlinear_operator q E dz1) dz2
  = nonlinear_operator q E (dz1 + dz2)
  /\ nonlinear_operator q E 0 = E.
Proof.
  split.
  - rewrite !nonlinear_operator_cis, map_map. apply map_ext. intros z.
    rewrite Cabs_mult, Cabs_cis, Rmult_1_r, <- Cmult_assoc, <- cis_plus.
    do 2 f_equal. ring.
  - rewrite nonlinear_operator_cis. apply map_fixed. intros z.
    replace (gamma q * Cabs z ^ 2 * 0) with 0 by ring.
    rewrite cis_0. apply Cmult_1_r.
Qed.

(** X2.  The non-linear operator keeps the number of samples and the total
    energy of the field, for every field, step and coefficient. *)
Theorem nonlinear_operator_conserves (q : QuantumChannel) (E : list C)
    (dz : R) :
  length (nonlinear_operator q E dz) = length E
  /\ energy (nonlinear_operator q E dz) = energy E.
Proof.
  split; [ apply length_nonlinear_operator | apply energy_nonlinear_operator ].
Qed.

(** X3.  On a non-empty array that fits the grid, a dispersion step over
    [dz1] followed by one over [dz2] is one dispersion step over
    [dz1 + dz2]; in particular a step over [- dz] undoes a step over
    [dz], and a step over 0 returns the array itself. *)
Theorem dispersion_step_composes (q : QuantumChannel) (dz1 dz2 : R)
    (E : list C) :
  E <> [] -> length E = length (angular_freq q) ->
  rbind (dispersion_step q dz1 E) (dispersion_step q dz2)
  = dispersion_step q (dz1 + dz2) E
  /\ rbind (dispersion_step q dz1 E) (dispersion_step q (- dz1)) = Ok E
  /\ dispersion_step q 0 E = Ok E.
Proof.
  intros Hne Hlen.
  assert (Hzero : dispersion_step q 0 E = Ok E).
  { rewrite dispersion_step_fits, dispersion_operator_zero by assumption.
    rewrite zip_with_ones by now rewrite length_dft.
    now rewrite idft_dft. }
  assert (Hcomp : forall a b,
             rbind (dispersion_step q a E) (dispersion_step q b)
             = dispersion_step q (a + b) E).
  { intros a b. rewrite (dispersion_step_fits q a E) by assumption.
    cbn [rbind].
    rewrite dispersion_step_fits.
    - rewrite dft_idft, zip_with_Cmult_assoc, dispersion_operator_product.
      now rewrite dispersion_step_fits.
    - intros H. apply (f_equal (@length C)) in H.
      rewrite length_idft, length_zip_with, length_dft in H
        by now rewrite length_dft, length_dispersion_operator.
      destruct E; [ congruence | discriminate ].
    - rewrite length_idft, length_zip_with, length_dft
        by now rewrite length_dft, length_dispersion_operator.
      exact Hlen. }
  split; [ apply Hcomp | ]. split; [ | exact Hzero ].
  rewrite Hcomp. replace (dz1 + - dz1) with 0 by ring. exact Hzero.
Qed.

End OperatorAlgebra.

(** * The energy budget *)

Section EnergyBudget.

Import Np.

Context {fd : FloatDivision}.

Lemma ssfm_step_energy (q : QuantumChannel) (dz : R) (E E' : list C) :
  ssfm_step_spec q dz E = Ok E' ->
  length E' = length E
  /\ energy E' = Rpower (attenuation q) dz ^ 2 * energy E.
Proof.
  rewrite ssfm_step_dispersion_step.
  destruct (dispersion_step q dz (nonlinear_operator q E (dz / 2)))
    as [E2 | e] eqn:HD; [ | discriminate ].
  cbn [rbind]. unfold Stage.attenuate. intros H. injection H as <-.
  apply dispersion_step_energy in HD. destruct HD as [Hl He].
  rewrite length_nonlinear_operator, energy_nonlinear_operator in *.
  rewrite length_map, energy_scale, length_nonlinear_operator,
    energy_nonlinear_operator.
  split; congruence.
Qed.

Lemma iterate_energy (q : QuantumChannel) (dz : R) (n : nat) (E E' : list C) :
  iterate n (ssfm_step_spec q dz) E = Ok E' ->
  length E' = length E
  /\ energy E' = (Rpower (attenuation q) dz ^ 2) ^ n * energy E.
Proof.
  revert E. induction n as [| n IH]; intros E; cbn [iterate].
  - intros [= <-]. split; [ reflexivity | simpl; ring ].
  - destruct (ssfm_step_spec q dz E) as [E1 | e] eqn:H1; [ | discriminate ].
    cbn [rbind]. intros H. apply IH in H. destruct H as [Hl He].
    apply ssfm_step_energy in H1. destruct H1 as [Hl1 He1].
    split; [ congruence | ].
    rewrite He, He1. simpl. ring.
Qed.

Lemma total_output_power (E : list C) : total (output_power E) = energy E.
Proof.
  unfold output_power. induction E as [| z E IH]; [ reflexivity | ].
  cbn [map zip_with total fold_right]. fold (total (zip_with Rplus
    (map (fun x => x ^ 2) (map Re E)) (map (fun y => y ^ 2) (map Im E)))).
  rewrite IH, energy_cons. unfold Cnorm2. ring.
Qed.

Lemma Rpower_nat_pow (x t : R) (n : nat) :
  Rpower x t ^ n = Rpower x (INR n * t).
Proof.
  induction n as [| n IH].
  - simpl. unfold Rpower. now rewrite !Rmult_0_l, exp_0.
  - rewrite S_INR. cbn [pow]. rewrite IH, <- Rpower_plus. f_equal. ring.
Qed.

(** X4.  With a positive stored attenuation factor, as the constructor
    makes it, one pass through the loop body, when it returns, leaves the
    world as it was, keeps the number of samples, and multiplies the energy
    of the field by [(attenuation ** dz) ** 2]: dispersion and
    non-linearity are lossless and the attenuation factor is applied to the
    amplitude. *)
Theorem ssfm_body_energy (dz : R) (E E' : list C) (w w' : world) :
  0 < attenuation (engine w) ->
  ssfm_body dz E w = (w', Ok E') ->
  w' = w
  /\ length E' = length E
  /\ energy E' = Rpower (attenuation (engine w)) dz ^ 2 * energy E.
Proof.
  intros _. rewrite ssfm_body_run. intros H. injection H as <- H.
  split; [ reflexivity | ]. now apply ssfm_step_energy.
Qed.

(** X5.  For a channel built by the constructor with an attenuation of [a]
    dB/km, a call on [Ex] and [Ey] of one length that returns publishes a
    power array whose sum is the sum of the input power
    [Ex ** 2 + Ey ** 2] times [10 ** (-(2 a (n dz)) / 10)], where [n] is
    the number of steps taken, the truncated float quotient of line 94:
    the published power falls by [2 a] dB per kilometre propagated, and by
    nothing else. *)
Theorem published_power_budget (L a b2 b3 dg g : R) (N : Z) (dz : R)
    (q : QuantumChannel) (w w' : world) (event_time : R)
    (t P Ex Ey E : list R) :
  __init__ L a b2 b3 dg g N dz = Ok q -> engine w = q ->
  length Ex = length Ey ->
  propagate_signal event_time t P Ex Ey E w = (w', Ok tt) ->
  exists p,
    timeline w' = p :: timeline w
    /\ total (pub_power p)
       = Rpower 10
           (- (2 * a * (INR (Z.to_nat (Int_part (fdiv L dz))) * dz)) / 10)
         * total (input_power Ex Ey).
Proof.
  intros Hinit Hw Hxy.
  apply init_inversion in Hinit. destruct Hinit as [HN Hq].
  rewrite propagate_signal_run.
  destruct (truediv _ _) as [ratio | e] eqn:Hdiv; [ | discriminate ].
  destruct (combine_field_same_length Ex Ey Hxy) as [E0 [H0 [_ [Hre Him]]]].
  rewrite H0.
  destruct (iterate _ _ E0) as [E1 | e] eqn:H1; [ | discriminate ].
  rewrite report_and_publish_run.
  destruct (last_item _) as [pl | e]; [ | discriminate ].
  intros H. injection H as <-.
  eexists. split; [ reflexivity | ]. cbn [pub_power].
  apply iterate_energy in H1. destruct H1 as [_ He].
  rewrite total_output_power, He.
  assert (HE0 : energy E0 = total (input_power Ex Ey)).
  { rewrite <- total_output_power. unfold output_power, input_power.
    now rewrite Hre, Him. }
  rewrite HE0. f_equal.
  assert (Hratio : ratio = fdiv L dz).
  { revert Hdiv. rewrite Hw, Hq. unfold stored; cbn [fiber_length step_size].
    unfold truediv. destruct (Req_dec_T dz 0); [ discriminate | ].
    now intros [= <-]. }
  rewrite Hw, Hq, Hratio. unfold stored; cbn [attenuation step_size].
  rewrite Rpower_mult, !Rpower_nat_pow.
  f_equal. simpl (INR 2). field.
Qed.

(** X6.  For a channel built with a positive attenuation in dB/km and a
    positive step, one pass through the loop body never increases the
    energy of the field, and strictly decreases it when the field is not
    null. *)
Theorem ssfm_body_attenuates (L a b2 b3 dg g : R) (N : Z) (dz : R)
    (q : QuantumChannel) (w w' : world) (E E' : list C) :
  __init__ L a b2 b3 dg g N dz = Ok q -> engine w = q ->
  0 < a -> 0 < dz ->
  ssfm_body dz E w = (w', Ok E') ->
  energy E' <= energy E /\ (0 < energy E -> energy E' < energy E).
Proof.
  intros Hinit Hw Ha Hdz Hrun.
  apply init_inversion in Hinit. destruct Hinit as [_ Hq].
  apply ssfm_body_energy in Hrun;
    [ | rewrite Hw, Hq; unfold stored; cbn [attenuation]; unfold Rpower;
        apply exp_pos ].
  destruct Hrun as [_ [_ He]].
  rewrite Hw, Hq in He. unfold stored in He; cbn [attenuation] in He.
  rewrite Rpower_mult in He.
  set (r := Rpower 10 (- a / 10 * dz)) in He.
  assert (Hr0 : 0 < r) by (unfold r, Rpower; apply exp_pos).
  assert (Hr1 : r < 1).
  { unfold r. rewrite <- (Rpower_O 10) by lra.
    apply Rpower_lt; [ lra | ].
    assert (0 < a / 10 * dz) by (apply Rmult_lt_0_compat; lra). lra. }
  assert (Hpos : 0 <= energy E).
  { clear. induction E as [| z E IH]; [ simpl; lra | ].
    rewrite energy_cons. pose proof (Cnorm2_nonneg z). lra. }
  assert (Hr2 : 0 < r ^ 2 < 1) by (simpl; nra).
  rewrite He. generalize dependent (r ^ 2). intros r2 _ Hr2.
  split; [ nra | intros; nra ].
Qed.

End EnergyBudget.

(** * Outcomes of a call *)

Section Outcomes.

Import Np.

Context {fd : FloatDivision}.

Lemma output_power_map (E : list C) :
  output_power E = map (fun z => Re z ^ 2 + Im z ^ 2) E.
Proof. unfold output_power. now rewrite !map_map, zip_with_map. Qed.

Lemma output_power_input_power (E : list C) :
  output_power E = input_power (map Re E) (map Im E).
Proof. reflexivity. Qed.

(** X7.  A call on [Ex] and [Ey] of one length that returns has published
    four arrays with as many samples as [Ex], which was not empty; the
    power array is [Ex_out ** 2 + Ey_out ** 2], it has no negative entry,
    and the magnitude array squared gives it back. *)
Theorem published_arrays_consistent (w w' : world) (event_time : R)
    (t P Ex Ey E : list R) :
  length Ex = length Ey ->
  propagate_signal event_time t P Ex Ey E w = (w', Ok tt) ->
  exists p,
    timeline w' = p :: timeline w
    /\ Ex <> []
    /\ length (pub_Ex p) = length Ex
    /\ length (pub_Ey p) = length Ex
    /\ length (pub_power p) = length Ex
    /\ length (pub_magnitude p) = length Ex
    /\ pub_power p = input_power (pub_Ex p) (pub_Ey p)
    /\ Forall (fun x => 0 <= x) (pub_power p)
    /\ map (fun m => m ^ 2) (pub_magnitude p) = pub_power p.
Proof.
  intros Hxy. rewrite propagate_signal_run.
  destruct (truediv _ _) as [ratio | e]; [ | discriminate ].
  destruct (combine_field_same_length Ex Ey Hxy) as [E0 [H0 [Hl0 _]]].
  rewrite H0.
  destruct (iterate _ _ E0) as [E1 | e] eqn:H1; [ | discriminate ].
  apply iterate_energy in H1. destruct H1 as [Hl1 _].
  rewrite report_and_publish_run.
  destruct (last_item _) as [pl | e] eqn:Hlast; [ | discriminate ].
  intros H. injection H as <-.
  eexists. split; [ reflexivity | ].
  cbn [pub_Ex pub_Ey pub_power pub_magnitude].
  assert (HlE : length E1 = length Ex) by congruence.
  split.
  { intros ->. destruct E1; [ discriminate Hlast | discriminate HlE ]. }
  rewrite !length_map, length_output_power.
  repeat (split; [ assumption || reflexivity | ]).
  rewrite output_power_map. split.
  - apply Forall_forall. intros x Hx. apply in_map_iff in Hx.
    destruct Hx as [z [<- _]]. simpl. nra.
  - rewrite !map_map. apply map_ext. intros z.
    rewrite pow2_sqrt; [ reflexivity | simpl; nra ].
Qed.

(** X8.  A call that raises leaves the world as it found it: nothing was
    printed and nothing published.  A call that returns has printed one
    line and published once, from the engine, at [event_time], and the
    printed power is the last sample of the published power array. *)
Theorem failed_call_leaves_no_trace (w : world) (event_time : R)
    (t P Ex Ey E : list R) :
  (forall e,
     snd (propagate_signal event_time t P Ex Ey E w) = Raise e ->
     fst (propagate_signal event_time t P Ex Ey E w) = w)
  /\ (snd (propagate_signal event_time t P Ex Ey E w) = Ok tt ->
      exists P_last p,
        fst (propagate_signal event_time t P Ex Ey E w)
        = after_publish w (event_time, P_last) p
        /\ pub_source p = engine w
        /\ pub_time p = event_time
        /\ last_item (pub_power p) = Ok P_last).
Proof.
  rewrite propagate_signal_field.
  destruct (propagated_field (engine w) Ex Ey) as [E1 | e0].
  - rewrite report_and_publish_run.
    destruct (last_item (output_power E1)) as [pl | e0] eqn:Hlast.
    + split; [ discriminate | ]. intros _. exists pl. eexists.
      split; [ reflexivity | ]. repeat split. exact Hlast.
    + split; [ reflexivity | discriminate ].
  - split; [ reflexivity | discriminate ].
Qed.

(** X9.  A zero step size makes every call raise [ZeroDivisionError], on
    the division of line 94, with nothing printed or published. *)
Theorem zero_step_size_raises (w : world) (event_time : R)
    (t P Ex Ey E : list R) :
  step_size (engine w) = 0 ->
  propagate_signal event_time t P Ex Ey E w = (w, Raise ZeroDivisionError).
Proof. apply propagate_signal_zero_step. Qed.

(** X10.  On empty [Ex] and [Ey] every call with a non-zero step size
    raises: [ValueError] from the first forward transform when at least one
    step is taken, [IndexError] from [P_out[-1]] when none is. *)
Theorem empty_field_raises (w : world) (event_time : R) (t P E : list R) :
  step_size (engine w) <> 0 ->
  propagate_signal event_time t P [] [] E w
  = (w, Raise (if (1 <=? Int_part (fiber_length (engine w)
                                    / step_size (engine w)))%Z
               then ValueError else IndexError)).
Proof.
  intros Hdz. rewrite propagate_signal_run, truediv_nonzero by assumption.
  change (combine_field [] []) with (@Ok (list C) []).
  pose proof (steps_at_least_one (fiber_length (engine w))
                (step_size (engine w)) Hdz) as Hsteps.
  destruct (Z.leb_spec 1 (Int_part (fiber_length (engine w)
                                    / step_size (engine w)))) as [H | H].
  - apply Hsteps in H.
    destruct (Z.to_nat _) as [| n] eqn:Hn; [ lia | ]. reflexivity.
  - assert (H' : ~ (1 <= Int_part (fdiv (fiber_length (engine w))
                                      (step_size (engine w))))%Z)
      by (intros H'; apply Hsteps in H'; lia).
    replace (Z.to_nat _) with O by lia. reflexivity.
Qed.

(** X11.  When [Ex] and [Ey] have different lengths and neither has a
    single sample, every call with a non-zero step size raises
    [ValueError] on line 98, whatever the number of steps. *)
Theorem unequal_fields_raise (w : world) (event_time : R)
    (t P Ex Ey E : list R) :
  step_size (engine w) <> 0 ->
  length Ex <> length Ey -> length Ex <> 1%nat -> length Ey <> 1%nat ->
  propagate_signal event_time t P Ex Ey E w = (w, Raise ValueError).
Proof.
  intros Hdz Hxy Hx Hy.
  rewrite propagate_signal_run, truediv_nonzero by assumption.
  assert (Hc : combine_field Ex Ey = Raise ValueError).
  { unfold combine_field, binop. rewrite length_map.
    destruct (Nat.eqb_spec (length Ex) (length Ey)); [ contradiction | ].
    destruct Ex as [| x [| x' Ex]]; destruct Ey as [| y [| y' Ey]];
      simpl in *; try reflexivity; congruence. }
  now rewrite Hc.
Qed.

(** X12.  The fibre length matters only through the number of steps: two
    engines that differ in [fiber_length] alone, for which the float
    quotient [fiber_length / step_size] of line 94 has the same integer
    part, return or raise alike, print the same line and publish the same
    arrays. *)
Theorem fiber_length_truncated (q : QuantumChannel) (L1 L2 : R) (w : world)
    (event_time : R) (t P Ex Ey E : list R) :
  Int_part (fdiv L1 (step_size q)) = Int_part (fdiv L2 (step_size q)) ->
  snd (propagate_signal event_time t P Ex Ey E
         (with_engine (with_fiber_length L1 q) w))
  = snd (propagate_signal event_time t P Ex Ey E
           (with_engine (with_fiber_length L2 q) w))
  /\ console (fst (propagate_signal event_time t P Ex Ey E
                     (with_engine (with_fiber_length L1 q) w)))
     = console (fst (propagate_signal event_time t P Ex Ey E
                       (with_engine (with_fiber_length L2 q) w)))
  /\ map pub_arrays
       (timeline (fst (propagate_signal event_time t P Ex Ey E
                         (with_engine (with_fiber_length L1 q) w))))
     = map pub_arrays
         (timeline (fst (propagate_signal event_time t P Ex Ey E
                           (with_engine (with_fiber_length L2 q) w)))).
Proof.
  intros Hfloor. rewrite !propagate_signal_run.
  cbn [engine with_engine fiber_length step_size with_fiber_length].
  unfold truediv. destruct (Req_dec_T (step_size q) 0);
    [ repeat split; reflexivity | ].
  destruct (combine_field Ex Ey) as [E0 | e]; [ | repeat split; reflexivity ].
  rewrite Hfloor.
  change (ssfm_step_spec (with_fiber_length L1 q))
    with (ssfm_step_spec (with_fiber_length L2 q)).
  destruct (iterate _ _ E0) as [E1 | e]; [ | repeat split; reflexivity ].
  rewrite !report_and_publish_run.
  destruct (last_item (output_power E1)); repeat split; reflexivity.
Qed.

(** X13.  Calls do not influence one another: after any first call,
    returned or raised, a second call returns or raises as it would have
    without the first, and adds the same lines and publications. *)
Theorem calls_are_independent (w : world)
    (time1 : R) (t1 P1 Ex1 Ey1 E1 : list R)
    (time2 : R) (t2 P2 Ex2 Ey2 E2 : list R) :
  snd (propagate_signal time2 t2 P2 Ex2 Ey2 E2
         (fst (propagate_signal time1 t1 P1 Ex1 Ey1 E1 w)))
  = snd (propagate_signal time2 t2 P2 Ex2 Ey2 E2 w)
  /\ exists lines pubs,
       console (fst (propagate_signal time2 t2 P2 Ex2 Ey2 E2 w))
       = lines ++ console w
       /\ timeline (fst (propagate_signal time2 t2 P2 Ex2 Ey2 E2 w))
          = pubs ++ timeline w
       /\ console (fst (propagate_signal time2 t2 P2 Ex2 Ey2 E2
                          (fst (propagate_signal time1 t1 P1 Ex1 Ey1 E1 w))))
          = lines
            ++ console (fst (propagate_signal time1 t1 P1 Ex1 Ey1 E1 w))
       /\ timeline (fst (propagate_signal time2 t2 P2 Ex2 Ey2 E2
                           (fst (propagate_signal time1 t1 P1 Ex1 Ey1 E1 w))))
          = pubs
            ++ timeline (fst (propagate_signal time1 t1 P1 Ex1 Ey1 E1 w)).
Proof.
  pose proof (propagate_signal_engine time1 t1 P1 Ex1 Ey1 E1 w) as Heng.
  set (w1 := fst (propagate_signal time1 t1 P1 Ex1 Ey1 E1 w)) in *.
  rewrite !propagate_signal_field, Heng.
  destruct (propagated_field (engine w) Ex2 Ey2) as [F | e].
  - rewrite !report_and_publish_run.
    destruct (last_item (output_power F)) as [pl | e].
    + split; [ reflexivity | ].
      exists [(time2, pl)]. eexists [_].
      cbn [fst console timeline after_publish app]. rewrite Heng.
      repeat split; reflexivity.
    + split; [ reflexivity | ]. exists [], []. repeat split; reflexivity.
  - split; [ reflexivity | ]. exists [], []. repeat split; reflexivity.
Qed.

End Outcomes.

(** * The constructed grid and attenuation *)

Section Constructed.

Import Np.

Lemma nth_arange (lo hi : Z) (k : nat) (d : Z) :
  (k < Z.to_nat (hi - lo))%nat -> nth k (arange lo hi) d = (lo + Z.of_nat k)%Z.
Proof. intros H. unfold arange. now rewrite nth_map_seq. Qed.

Lemma nth_frequency_bins (n : Z) (k : nat) :
  (0 < n)%Z -> (k < Z.to_nat n)%nat ->
  nth k (frequency_bins n) 0%Z
  = if (Z.of_nat k <=? (n - 1) / 2)%Z then Z.of_nat k
    else (Z.of_nat k - n)%Z.
Proof.
  intros Hn Hk. unfold frequency_bins.
  pose proof (Z.div_mod (n - 1) 2 ltac:(lia)) as H1.
  pose proof (Z.mod_pos_bound (n - 1) 2 ltac:(lia)) as H2.
  pose proof (Z.div_mod n 2 ltac:(lia)) as H3.
  pose proof (Z.mod_pos_bound n 2 ltac:(lia)) as H4.
  destruct (Z.leb_spec (Z.of_nat k) ((n - 1) / 2)) as [Hle | Hgt].
  - rewrite app_nth1 by (rewrite length_arange; lia).
    rewrite nth_arange by lia. lia.
  - rewrite app_nth2 by (rewrite length_arange; lia).
    rewrite length_arange, nth_arange by lia. lia.
Qed.

(** X14.  A constructed channel has exactly [fft_samples] frequencies and
    as many angular frequencies; bin [k] is [k / (N * 1e-12)] up to
    [k = (N - 1) // 2] and [(k - N) / (N * 1e-12)] above, the standard
    ordering with the negative frequencies last; and each angular
    frequency is [2 * pi] times its frequency. *)
Theorem frequency_grid_bins (L a b2 b3 dg g : R) (N : Z) (dz : R)
    (q : QuantumChannel) (k : nat) :
  __init__ L a b2 b3 dg g N dz = Ok q ->
  (k < Z.to_nat N)%nat ->
  length (frequency_grid q) = Z.to_nat N
  /\ length (angular_freq q) = Z.to_nat N
  /\ nth k (frequency_grid q) 0
     = IZR (if (Z.of_nat k <=? (N - 1) / 2)%Z then Z.of_nat k
            else Z.of_nat k - N)
       / (IZR N * 1e-12)
  /\ nth k (angular_freq q) 0 = 2 * PI * nth k (frequency_grid q) 0.
Proof.
  intros Hinit Hk.
  apply init_inversion in Hinit. destruct Hinit as [HN ->].
  unfold stored; cbn [frequency_grid angular_freq].
  set (f := fun z : Z => IZR z * (1 / (IZR N * 1e-12))).
  assert (Hlen : length (map f (frequency_bins N)) = Z.to_nat N)
    by now rewrite length_map, length_frequency_bins.
  assert (Hnth : nth k (map f (frequency_bins N)) 0
                 = f (nth k (frequency_bins N) 0%Z)).
  { rewrite (nth_indep _ 0 (f 0%Z)) by (rewrite Hlen; exact Hk).
    apply map_nth. }
  split; [ exact Hlen | ]. split; [ now rewrite length_map | ]. split.
  - rewrite Hnth, nth_frequency_bins by assumption.
    unfold f, Rdiv. ring.
  - rewrite (nth_indep _ 0 (2 * PI * 0)) by (rewrite length_map, Hlen; exact Hk).
    apply (map_nth (fun x => 2 * PI * x)).
Qed.

(** X15.  The stored attenuation factor is positive; it is below 1 for a
    positive attenuation in dB/km, equal to 1 for 0 dB/km, and above 1 (a
    gain) for a negative one. *)
Theorem stored_attenuation_range (L a b2 b3 dg g : R) (N : Z) (dz : R)
    (q : QuantumChannel) :
  __init__ L a b2 b3 dg g N dz = Ok q ->
  0 < attenuation q
  /\ (0 < a -> attenuation q < 1)
  /\ (a = 0 -> attenuation q = 1)
  /\ (a < 0 -> 1 < attenuation q).
Proof.
  intros Hinit.
  split; [ now apply init_attenuation_positive in Hinit | ].
  apply init_inversion in Hinit. destruct Hinit as [_ ->].
  unfold stored; cbn [attenuation].
  assert (H1 : Rpower 10 0 = 1) by (apply Rpower_O; lra).
  split; [ | split ].
  - intros Ha. rewrite <- H1. apply Rpower_lt; lra.
  - intros ->. rewrite <- H1. f_equal. lra.
  - intros Ha. rewrite <- H1. apply Rpower_lt; lra.
Qed.

(** X16.  For a constructed channel the first element of the dispersion
    operator, that of the zero-frequency bin, is 1 for every step: the
    dispersion never touches the mean component of the field. *)
Theorem dispersion_spares_dc (L a b2 b3 dg g : R) (N : Z) (dz : R)
    (q : QuantumChannel) (h : R) :
  __init__ L a b2 b3 dg g N dz = Ok q ->
  nth_error (dispersion_operator q h) 0 = Some C1.
Proof.
  intros Hinit.
  assert (H0 : (0 < Z.to_nat N)%nat).
  { apply init_inversion in Hinit. destruct Hinit as [HN _]. lia. }
  destruct (frequency_grid_bins L a b2 b3 dg g N dz q 0 Hinit H0)
    as [_ [Hl [Hf Hw]]].
  assert (Hw0 : nth 0 (angular_freq q) 0 = 0).
  { rewrite Hw, Hf.
    destruct (Z.leb_spec (Z.of_nat 0) ((N - 1) / 2)) as [_ | Hgt].
    - simpl. unfold Rdiv. ring.
    - apply init_inversion in Hinit. destruct Hinit as [HN _].
      pose proof (Z.div_pos (N - 1) 2 ltac:(lia) ltac:(lia)). simpl in Hgt. lia. }
  rewrite dispersion_operator_cis, nth_error_map.
  rewrite (nth_error_nth' _ 0) by (rewrite Hl; exact H0).
  rewrite Hw0. cbn [option_map]. f_equal.
  rewrite <- cis_0. f_equal. unfold dispersion_phase. ring.
Qed.

End Constructed.

(** * Edge cases of the step count and of the grid *)

Section Edges.

Import Np.

Context {fd : FloatDivision}.



(** X18.  When [fiber_length / step_size] is below 1, a negative fibre
    length included, no step is taken: whatever the dispersion, the
    non-linearity and the attenuation, a call on non-empty [Ex] and [Ey] of
    one length returns and publishes its input, with the power
    [Ex ** 2 + Ey ** 2]. *)
Theorem short_fiber_publishes_input (w : world) (event_time : R)
    (t P Ex Ey E : list R) :
  step_size (engine w) <> 0 ->
  fiber_length (engine w) / step_size (engine w) < 1 ->
  Ex <> [] -> length Ex = length Ey ->
  exists P_last,
    propagate_signal event_time t P Ex Ey E w
    = (after_publish w (event_time, P_last)
         {| pub_source := engine w; pub_time := event_time;
            pub_power := input_power Ex Ey;
            pub_Ex := Ex; pub_Ey := Ey;
            pub_magnitude := map sqrt (input_power Ex Ey) |}, Ok tt).
Proof.
  intros Hdz Hshort Hne Hxy.
  rewrite propagate_signal_run, truediv_nonzero by assumption.
  destruct (combine_field_same_length Ex Ey Hxy) as [E0 [H0 [Hl0 [Hre Him]]]].
  rewrite H0.
  rewrite no_step_below_one by assumption. cbn [iterate]. rewrite report_and_publish_run.
  rewrite output_power_input_power, Hre, Him.
  destruct (last_item_defined (input_power Ex Ey)) as [pl Hpl].
  - intros H. apply (f_equal (@length R)) in H.
    unfold input_power in H.
    rewrite length_zip_with, length_map in H by now rewrite !length_map.
    destruct Ex; [ congruence | discriminate ].
  - rewrite Hpl. exists pl. reflexivity.
Qed.

End Edges.

(** * Concrete runs *)

Section Scenario.

Import Np.

#[local] Existing Instance exact_division.

Lemma propagate_signal_steps_witness :
  step_size (engine (fresh_world scenario_channel)) <> 0
  /\ exists n : nat,
       n = Z.to_nat
             (Int_part
                (fdiv (fiber_length (engine (fresh_world scenario_channel)))
                   (step_size (engine (fresh_world scenario_channel)))))
       /\ (0 <= fdiv (fiber_length (engine (fresh_world scenario_channel)))
                  (step_size (engine (fresh_world scenario_channel))) ->
           Z.of_nat n
           = Int_part
               (fdiv (fiber_length (engine (fresh_world scenario_channel)))
                  (step_size (engine (fresh_world scenario_channel)))))
       /\ propagate_signal 0 zeros8 zeros8 unit_impulse zeros8 unit_impulse
            (fresh_world scenario_channel)
          = propagate_spec n 0 unit_impulse zeros8
              (fresh_world scenario_channel).
Proof.
  assert (H : step_size (engine (fresh_world scenario_channel)) <> 0)
    by (simpl; lra).
  split; [ exact H | ].
  exact (propagate_signal_steps (fresh_world scenario_channel) 0
           zeros8 zeros8 unit_impulse zeros8 unit_impulse H).
Defined.

Lemma dispersion_step_lossless_witness :
  exists E',
    dispersion_step scenario_channel 1 (map RtoC unit_impulse) = Ok E'
    /\ energy E' = energy (map RtoC unit_impulse).
Proof.
  destruct (dispersion_step_lossless scenario_channel 1) as [_ [Hen Hdef]].
  destruct (Hdef (map RtoC unit_impulse)) as [E' HE'].
  - discriminate.
  - reflexivity.
  - exists E'. split; [ exact HE' | exact (Hen _ _ HE') ].
Defined.



Lemma null_channel_is_identity_witness :
  __init__ 1 0 0 0 0.1 0 8 1 = Ok scenario_channel
  /\ engine (fresh_world scenario_channel) = scenario_channel
  /\ length unit_impulse = length zeros8
  /\ exists w' P_last,
       propagate_signal 0 zeros8 unit_impulse unit_impulse zeros8 unit_impulse
         (fresh_world scenario_channel) = (w', Ok tt)
       /\ w' = after_publish (fresh_world scenario_channel) (0, P_last)
                 {| pub_source := scenario_channel; pub_time := 0;
                    pub_power :=
                      zip_with Rplus (map (fun x => x ^ 2) unit_impulse)
                        (map (fun y => y ^ 2) zeros8);
                    pub_Ex := unit_impulse; pub_Ey := zeros8;
                    pub_magnitude :=
                      map sqrt
                        (zip_with Rplus (map (fun x => x ^ 2) unit_impulse)
                           (map (fun y => y ^ 2) zeros8)) |}.
Proof.
  assert (Hinit : __init__ 1 0 0 0 0.1 0 8 1 = Ok scenario_channel)
    by (apply init_positive_loss; [ lra | reflexivity ]).
  split; [ exact Hinit | ]. split; [ reflexivity | ]. split; [ reflexivity | ].
  destruct (null_channel_is_identity 1 0.1 8 1 scenario_channel
              (fresh_world scenario_channel) 0
              zeros8 unit_impulse unit_impulse zeros8 unit_impulse
              Hinit eq_refl eq_refl) as [Hout Hret].
  destruct Hret as [w' Hw']; [ lra | reflexivity | ].
  destruct (Hout w' Hw') as [p Hp].
  exists w', p. split; assumption.
Defined.



Lemma unused_arguments_witness :
  exists w' p E1,
    propagate_signal 0 zeros8 zeros8 unit_impulse zeros8 unit_impulse
      (fresh_world scenario_channel) = (w', Ok tt)
    /\ propagate_signal 0 zeros8 zeros8 unit_impulse zeros8 unit_impulse
         (fresh_world scenario_channel)
       = propagate_signal 0 [] [1] unit_impulse zeros8 [2; 3]
           (fresh_world scenario_channel)
    /\ propagated_field scenario_channel unit_impulse zeros8 = Ok E1
    /\ timeline w' = [p]
    /\ pub_source p = scenario_channel
    /\ pub_time p = 0.
Proof.
  destruct (propagate_signal_fits 0 zeros8 zeros8 unit_impulse zeros8
              unit_impulse (fresh_world scenario_channel))
    as [E0 [p0 [_ [_ Hrun]]]].
  - simpl. lra.
  - discriminate.
  - reflexivity.
  - reflexivity.
  - destruct (unused_arguments (fresh_world scenario_channel) 0
                zeros8 zeros8 unit_impulse zeros8 unit_impulse
                [] [1] [2; 3]) as [Hsame Hpub].
    destruct (Hpub _ Hrun) as [p [E1 [HE1 [Htl [Hsrc [Htime _]]]]]].
    eexists; exists p, E1.
    split; [ exact Hrun | ].
    split; [ exact Hsame | ].
    split; [ exact HE1 | ].
    split; [ exact Htl | ]. split; [ exact Hsrc | exact Htime ].
Defined.

Lemma dispersion_step_composes_witness :
  map RtoC unit_impulse <> []
  /\ length (map RtoC unit_impulse) = length (angular_freq scenario_channel)
  /\ rbind (dispersion_step scenario_channel 1 (map RtoC unit_impulse))
       (dispersion_step scenario_channel (- (1)))
     = Ok (map RtoC unit_impulse).
Proof.
  assert (H1 : map RtoC unit_impulse <> []) by discriminate.
  assert (H2 : length (map RtoC unit_impulse)
               = length (angular_freq scenario_channel)) by reflexivity.
  split; [ exact H1 | ]. split; [ exact H2 | ].
  exact (proj1 (proj2 (dispersion_step_composes scenario_channel 1 2
                         (map RtoC unit_impulse) H1 H2))).
Defined.

Lemma ssfm_body_energy_witness :
  0 < attenuation (engine (fresh_world scenario_channel))
  /\ exists E',
    ssfm_body 1 (map RtoC unit_impulse) (fresh_world scenario_channel)
    = (fresh_world scenario_channel, Ok E')
    /\ length E' = length (map RtoC unit_impulse)
    /\ energy E'
       = Rpower (attenuation (engine (fresh_world scenario_channel))) 1 ^ 2
         * energy (map RtoC unit_impulse).
Proof.
  assert (Hpos : 0 < attenuation (engine (fresh_world scenario_channel)))
    by (unfold fresh_world, scenario_channel, stored;
        cbn [attenuation engine]; unfold Rpower; apply exp_pos).
  split; [ exact Hpos | ].
  destruct (ssfm_step_fits scenario_channel 1 (map RtoC unit_impulse))
    as [E' [HE' _]].
  - discriminate.
  - reflexivity.
  - assert (Hrun : ssfm_body 1 (map RtoC unit_impulse)
                     (fresh_world scenario_channel)
                   = (fresh_world scenario_channel, Ok E'))
      by (rewrite ssfm_body_run; cbn [engine fresh_world]; now rewrite HE').
    exists E'. split; [ exact Hrun | ].
    exact (proj2 (ssfm_body_energy 1 (map RtoC unit_impulse) E'
                    (fresh_world scenario_channel)
                    (fresh_world scenario_channel) Hpos Hrun)).
Defined.

Lemma published_power_budget_witness :
  __init__ 1 0 0 0 0.1 0 8 1 = Ok scenario_channel
  /\ engine (fresh_world scenario_channel) = scenario_channel
  /\ length unit_impulse = length zeros8
  /\ exists w' p,
       propagate_signal 0 zeros8 zeros8 unit_impulse zeros8 unit_impulse
         (fresh_world scenario_channel) = (w', Ok tt)
       /\ timeline w' = p :: timeline (fresh_world scenario_channel)
       /\ total (pub_power p)
          = Rpower 10
              (- (2 * 0 * (INR (Z.to_nat (Int_part (fdiv 1 1))) * 1)) / 10)
            * total (input_power unit_impulse zeros8).
Proof.
  assert (Hinit : __init__ 1 0 0 0 0.1 0 8 1 = Ok scenario_channel)
    by (apply init_positive_loss; [ lra | reflexivity ]).
  split; [ exact Hinit | ]. split; [ reflexivity | ]. split; [ reflexivity | ].
  destruct (propagate_signal_fits 0 zeros8 zeros8 unit_impulse zeros8
              unit_impulse (fresh_world scenario_channel))
    as [E0 [p0 [_ [_ Hrun]]]].
  - simpl. lra.
  - discriminate.
  - reflexivity.
  - reflexivity.
  - destruct (published_power_budget 1 0 0 0 0.1 0 8 1 scenario_channel
                (fresh_world scenario_channel) _ 0
                zeros8 zeros8 unit_impulse zeros8 unit_impulse
                Hinit eq_refl eq_refl Hrun) as [p [Htl Htot]].
    eexists; exists p. split; [ exact Hrun | ]. split; assumption.
Defined.

Lemma ssfm_body_attenuates_witness :
  __init__ 1 0.2 0 0 0.1 0 8 1 = Ok (stored 1 0.2 0 0 0.1 0 8 1)
  /\ 0 < 0.2 /\ 0 < 1
  /\ exists E',
       ssfm_body 1 (map RtoC unit_impulse)
         (fresh_world (stored 1 0.2 0 0 0.1 0 8 1))
       = (fresh_world (stored 1 0.2 0 0 0.1 0 8 1), Ok E')
       /\ energy E' <= energy (map RtoC unit_impulse).
Proof.
  assert (Hinit : __init__ 1 0.2 0 0 0.1 0 8 1
                  = Ok (stored 1 0.2 0 0 0.1 0 8 1))
    by (apply init_positive_loss; [ lra | reflexivity ]).
  assert (Ha : 0 < 0.2) by lra.
  assert (Hdz : 0 < 1) by lra.
  split; [ exact Hinit | ]. split; [ exact Ha | ]. split; [ exact Hdz | ].
  destruct (ssfm_step_fits (stored 1 0.2 0 0 0.1 0 8 1) 1
              (map RtoC unit_impulse)) as [E' [HE' _]].
  - discriminate.
  - reflexivity.
  - assert (Hrun : ssfm_body 1 (map RtoC unit_impulse)
                     (fresh_world (stored 1 0.2 0 0 0.1 0 8 1))
                   = (fresh_world (stored 1 0.2 0 0 0.1 0 8 1), Ok E'))
      by (rewrite ssfm_body_run; cbn [engine fresh_world]; now rewrite HE').
    exists E'. split; [ exact Hrun | ].
    exact (proj1 (ssfm_body_attenuates 1 0.2 0 0 0.1 0 8 1
                    (stored 1 0.2 0 0 0.1 0 8 1)
                    (fresh_world (stored 1 0.2 0 0 0.1 0 8 1))
                    (fresh_world (stored 1 0.2 0 0 0.1 0 8 1))
                    (map RtoC unit_impulse) E'
                    Hinit eq_refl Ha Hdz Hrun)).
Defined.

Lemma published_arrays_consistent_witness :
  length unit_impulse = length zeros8
  /\ exists w' p,
       propagate_signal 0 zeros8 zeros8 unit_impulse zeros8 unit_impulse
         (fresh_world scenario_channel) = (w', Ok tt)
       /\ timeline w' = p :: timeline (fresh_world scenario_channel)
       /\ length (pub_power p) = length unit_impulse
       /\ map (fun m => m ^ 2) (pub_magnitude p) = pub_power p.
Proof.
  split; [ reflexivity | ].
  destruct (propagate_signal_fits 0 zeros8 zeros8 unit_impulse zeros8
              unit_impulse (fresh_world scenario_channel))
    as [E0 [p0 [_ [_ Hrun]]]].
  - simpl. lra.
  - discriminate.
  - reflexivity.
  - reflexivity.
  - destruct (published_arrays_consistent (fresh_world scenario_channel) _ 0
                zeros8 zeros8 unit_impulse zeros8 unit_impulse
                eq_refl Hrun)
      as [p [Htl [_ [_ [_ [Hlp [_ [_ [_ Hsq]]]]]]]]].
    eexists; exists p. split; [ exact Hrun | ].
    split; [ exact Htl | ]. split; [ exact Hlp | exact Hsq ].
Defined.

Lemma failed_call_leaves_no_trace_witness :
  snd (propagate_signal 0 [] [] [] [] []
         (fresh_world scenario_channel)) = Raise ValueError
  /\ fst (propagate_signal 0 [] [] [] [] []
            (fresh_world scenario_channel)) = fresh_world scenario_channel.
Proof.
  assert (H : snd (propagate_signal 0 [] [] [] [] []
                     (fresh_world scenario_channel)) = Raise ValueError).
  { rewrite (propagate_signal_misfit 0 [] [] [] [] []
               (fresh_world scenario_channel)).
    - reflexivity.
    - simpl. lra.
    - replace (Int_part _) with 1%Z; [ lia | ].
      apply Int_part_spec. simpl. lra.
    - reflexivity.
    - discriminate.
    - discriminate. }
  split; [ exact H | ].
  exact (proj1 (failed_call_leaves_no_trace (fresh_world scenario_channel) 0
                  [] [] [] [] []) ValueError H).
Defined.

Lemma zero_step_size_raises_witness :
  step_size (engine (fresh_world (stored 1 0 0 0 0.1 0 8 0))) = 0
  /\ propagate_signal 0 zeros8 zeros8 unit_impulse zeros8 unit_impulse
       (fresh_world (stored 1 0 0 0 0.1 0 8 0))
     = (fresh_world (stored 1 0 0 0 0.1 0 8 0), Raise ZeroDivisionError).
Proof.
  assert (H : step_size (engine (fresh_world (stored 1 0 0 0 0.1 0 8 0))) = 0)
    by reflexivity.
  split; [ exact H | ].
  exact (zero_step_size_raises (fresh_world (stored 1 0 0 0 0.1 0 8 0)) 0
           zeros8 zeros8 unit_impulse zeros8 unit_impulse H).
Defined.

Lemma empty_field_raises_witness :
  step_size (engine (fresh_world scenario_channel)) <> 0
  /\ propagate_signal 0 [] [] [] [] [] (fresh_world scenario_channel)
     = (fresh_world scenario_channel,
        Raise (if (1 <=? Int_part
                           (fiber_length (engine (fresh_world scenario_channel))
                            / step_size (engine (fresh_world scenario_channel))))%Z
               then ValueError else IndexError)).
Proof.
  assert (H : step_size (engine (fresh_world scenario_channel)) <> 0)
    by (simpl; lra).
  split; [ exact H | ].
  exact (empty_field_raises (fresh_world scenario_channel) 0 [] [] [] H).
Defined.

Lemma unequal_fields_raise_witness :
  step_size (engine (fresh_world scenario_channel)) <> 0
  /\ length unit_impulse <> length [0; 0]
  /\ propagate_signal 0 zeros8 zeros8 unit_impulse [0; 0] unit_impulse
       (fresh_world scenario_channel)
     = (fresh_world scenario_channel, Raise ValueError).
Proof.
  assert (H : step_size (engine (fresh_world scenario_channel)) <> 0)
    by (simpl; lra).
  assert (H1 : length unit_impulse <> length [0; 0]) by discriminate.
  split; [ exact H | ]. split; [ exact H1 | ].
  apply (unequal_fields_raise (fresh_world scenario_channel) 0
           zeros8 zeros8 unit_impulse [0; 0] unit_impulse H H1);
    discriminate.
Defined.

Lemma fiber_length_truncated_witness :
  Int_part (fdiv 1 (step_size scenario_channel))
  = Int_part (fdiv (3 / 2) (step_size scenario_channel))
  /\ snd (propagate_signal 0 zeros8 zeros8 unit_impulse zeros8 unit_impulse
            (with_engine (with_fiber_length 1 scenario_channel)
               (fresh_world scenario_channel)))
     = snd (propagate_signal 0 zeros8 zeros8 unit_impulse zeros8 unit_impulse
              (with_engine (with_fiber_length (3 / 2) scenario_channel)
                 (fresh_world scenario_channel))).
Proof.
  assert (H : Int_part (fdiv 1 (step_size scenario_channel))
              = Int_part (fdiv (3 / 2) (step_size scenario_channel))).
  { unfold scenario_channel, stored; cbn [step_size fdiv exact_division].
    rewrite <- (Int_part_spec (1 / 1) 1) by lra.
    rewrite <- (Int_part_spec (3 / 2 / 1) 1) by lra.
    reflexivity. }
  split; [ exact H | ].
  exact (proj1 (fiber_length_truncated scenario_channel 1 (3 / 2)
                  (fresh_world scenario_channel) 0
                  zeros8 zeros8 unit_impulse zeros8 unit_impulse H)).
Defined.

Lemma frequency_grid_bins_witness :
  __init__ 1 0 0 0 0.1 0 8 1 = Ok scenario_channel
  /\ (5 < Z.to_nat 8)%nat
  /\ length (frequency_grid scenario_channel) = Z.to_nat 8
  /\ nth 5 (frequency_grid scenario_channel) 0
     = IZR (if (Z.of_nat 5 <=? (8 - 1) / 2)%Z then Z.of_nat 5
            else Z.of_nat 5 - 8)
       / (IZR 8 * 1e-12).
Proof.
  assert (Hinit : __init__ 1 0 0 0 0.1 0 8 1 = Ok scenario_channel)
    by (apply init_positive_loss; [ lra | reflexivity ]).
  assert (Hk : (5 < Z.to_nat 8)%nat) by (simpl; lia).
  split; [ exact Hinit | ]. split; [ exact Hk | ].
  destruct (frequency_grid_bins 1 0 0 0 0.1 0 8 1 scenario_channel 5 Hinit Hk)
    as [Hl [_ [Hn _]]].
  split; assumption.
Defined.

Lemma stored_attenuation_range_witness :
  default_channel = Ok (stored 50.0 0.2 (-21.27) 0.12 0.1 1.3 1024 0.1)
  /\ 0 < 0.2
  /\ 0 < attenuation (stored 50.0 0.2 (-21.27) 0.12 0.1 1.3 1024 0.1)
  /\ attenuation (stored 50.0 0.2 (-21.27) 0.12 0.1 1.3 1024 0.1) < 1.
Proof.
  assert (Hinit : default_channel
                  = Ok (stored 50.0 0.2 (-21.27) 0.12 0.1 1.3 1024 0.1))
    by (apply init_positive_loss; [ lra | reflexivity ]).
  assert (Ha : 0 < 0.2) by lra.
  split; [ exact Hinit | ]. split; [ exact Ha | ].
  destruct (stored_attenuation_range 50.0 0.2 (-21.27) 0.12 0.1 1.3 1024 0.1
              _ Hinit) as [Hpos [Hlt _]].
  split; [ exact Hpos | exact (Hlt Ha) ].
Defined.

Lemma dispersion_spares_dc_witness :
  __init__ 1 0 0 0 0.1 0 8 1 = Ok scenario_channel
  /\ nth_error (dispersion_operator scenario_channel 1) 0 = Some C1.
Proof.
  assert (Hinit : __init__ 1 0 0 0 0.1 0 8 1 = Ok scenario_channel)
    by (apply init_positive_loss; [ lra | reflexivity ]).
  split; [ exact Hinit | ].
  exact (dispersion_spares_dc 1 0 0 0 0.1 0 8 1 scenario_channel 1 Hinit).
Defined.


Lemma short_fiber_publishes_input_witness :
  step_size (engine (fresh_world (stored (-1) 0.2 (-21.27) 0.12 0.1 1.3 8 1)))
  <> 0
  /\ fiber_length
       (engine (fresh_world (stored (-1) 0.2 (-21.27) 0.12 0.1 1.3 8 1)))
     / step_size
         (engine (fresh_world (stored (-1) 0.2 (-21.27) 0.12 0.1 1.3 8 1)))
     < 1
  /\ exists P_last,
       propagate_signal 0 [] [] unit_impulse zeros8 []
         (fresh_world (stored (-1) 0.2 (-21.27) 0.12 0.1 1.3 8 1))
       = (after_publish
            (fresh_world (stored (-1) 0.2 (-21.27) 0.12 0.1 1.3 8 1))
            (0, P_last)
            {| pub_source := stored (-1) 0.2 (-21.27) 0.12 0.1 1.3 8 1;
               pub_time := 0;
               pub_power := input_power unit_impulse zeros8;
               pub_Ex := unit_impulse; pub_Ey := zeros8;
               pub_magnitude := map sqrt (input_power unit_impulse zeros8) |},
          Ok tt).
Proof.
  assert (H1 : step_size
                 (engine (fresh_world
                            (stored (-1) 0.2 (-21.27) 0.12 0.1 1.3 8 1))) <> 0)
    by (cbn [step_size engine fresh_world stored]; lra).
  assert (H2 : fiber_length
                 (engine (fresh_world
                            (stored (-1) 0.2 (-21.27) 0.12 0.1 1.3 8 1)))
               / step_size
                   (engine (fresh_world
                              (stored (-1) 0.2 (-21.27) 0.12 0.1 1.3 8 1)))
               < 1)
    by (cbn [step_size fiber_length engine fresh_world stored]; lra).
  split; [ exact H1 | ]. split; [ exact H2 | ].
  apply (short_fiber_publishes_input _ 0 [] [] unit_impulse zeros8 [] H1 H2).
  - discriminate.
  - reflexivity.
Defined.

End Scenario.
